(** * EntityManager.js: the deferred-mutation entity store of redux-orm

    A shallow embedding of [src/EntityManager.js].  The manager owns one
    branch of the state tree (an id array and an id-to-attributes map) and
    a log of recorded mutations; [reduce] folds the log over the branch.

    Modelling conventions.
    - A JavaScript number is a [num]: an integer or [-Infinity], the one
      non-finite value the code itself produces ([Math.max()] of no
      arguments).  Arithmetic is exact, that is, ids are taken in the range
      where IEEE doubles represent integers exactly.
    - An attribute record is a finite map from property names to numbers.
      A missing property reads as [None] ([undefined]).
    - The entity map is a finite map keyed by ids: JavaScript keys the
      object by [String(id)], which is injective on numbers.
    - The branch is a record of the two fields that the schema's
      [arrName] and [mapName] select in the tree object.
    - A thrown [Error] is a [Throw] in the [result] monad. *)

From stdpp Require Import gmap strings list fin_maps sorting.
From Stdlib Require Import ZArith Lia.

#[local] Set Warnings "-clear-no-such-hyp".

Local Open Scope Z_scope.
Local Open Scope string_scope.
Local Open Scope list_scope.

(** ** Numbers *)

Inductive num : Type :=
  | NegInf
  | Fin (z : Z).

#[global] Instance num_eq_dec : EqDecision num.
Proof. solve_decision. Defined.

#[global] Instance num_countable : Countable num.
Proof.
  refine (inj_countable'
            (λ n, match n with NegInf => None | Fin z => Some z end)
            (λ o, match o with None => NegInf | Some z => Fin z end) _).
  by intros [].
Defined.

#[global] Instance num_inhabited : Inhabited num := populate NegInf.

(** [a < b] on numbers, as a boolean. *)
Definition num_ltb (a b : num) : bool :=
  match a, b with
  | _, NegInf => false
  | NegInf, Fin _ => true
  | Fin x, Fin y => bool_decide (x < y)
  end.

Definition num_max (a b : num) : num := if num_ltb a b then b else a.

(** [Math.max(...l)]: [-Infinity] when called with no argument. *)
Definition Math_max (l : list num) : num := foldr num_max NegInf l.

(** [n + 1]. *)
Definition num_succ (n : num) : num :=
  match n with
  | NegInf => NegInf
  | Fin z => Fin (z + 1)
  end.

(** ** Data model *)

Record Schema : Type := {
  idAttribute : string;
  arrName : string;
  mapName : string;
}.

(** The branch: [tree[arrName]] and [tree[mapName]]. *)
Record Tree : Type := {
  idArr : list num;
  entityMap : gmap num (gmap string num);
}.

Inductive Error : Type :=
  | EmptyStoreError      (* 'Tried getting from empty QuerySet' *)
  | EntityNotFoundError  (* 'Entity not found when calling get method' *)
  | IndexOutOfRangeError
  | UpdaterError.        (* an exception raised by an updater function *)

Inductive result (A : Type) : Type :=
  | Ok (a : A)
  | Throw (e : Error).
Arguments Ok {A} a.
Arguments Throw {A} e.

#[global] Instance result_ret : MRet result := λ A, Ok.
#[global] Instance result_bind : MBind result := λ A B k r,
  match r with
  | Ok a => k a
  | Throw e => Throw e
  end.

(** [action.payload.updater]: an object to merge, or a function. The
    function receives [entityMap[_id]], which is [undefined] for an id
    the map does not have, and may throw. *)
Inductive Updater : Type :=
  | MergePatch (patch : gmap string num)
  | ReplaceFn (f : option (gmap string num) → result (gmap string num)).

(** The records of the mutation log, by [action.type]. *)
Inductive Action : Type :=
  | CREATE (payload : gmap string num)
  | UPDATE (ids : list num) (updater : Updater)
  | DELETE (ids : list num)
  | ORDER (payload : list string)
  | UNKNOWN (type : string).

Record EntityManager : Type := {
  schema : Schema;
  tree : Tree;
  mutations : list Action;
}.

(** [new EntityManager(tree)], with the schema set on the prototype by
    [createManager]. *)
Definition new_EntityManager (s : Schema) (t : Tree) : EntityManager :=
  {| schema := s; tree := t; mutations := [] |}.

(** ** Read accessors *)

Definition getEntityTree (m : EntityManager) : Tree := tree m.
Definition getEntityMap (m : EntityManager) : gmap num (gmap string num) :=
  entityMap (getEntityTree m).
Definition getIdAttribute (m : EntityManager) : string := idAttribute (schema m).
Definition getIdArray (m : EntityManager) : list num := idArr (getEntityTree m).
Definition _mapName (m : EntityManager) : string := mapName (schema m).
Definition _arrName (m : EntityManager) : string := arrName (schema m).

(** [Object.assign({[idAttribute]: id}, entityMap[id])]: the properties of
    the stored record are copied over the id. *)
Definition getFullEntity (m : EntityManager) (id : num) : gmap string num :=
  default ∅ (getEntityMap m !! id) ∪ {[ getIdAttribute m := id ]}.

Definition getFullEntities (m : EntityManager) : list (gmap string num) :=
  getFullEntity m <$> getIdArray m.

Definition nextId (m : EntityManager) : num :=
  num_succ (Math_max (getIdArray m)).

(** ** External collaborators *)

(** Modelled from the spec: [match] of [utils.js], the predicate matcher
    (section 6): true iff every key of the lookup is present in the entity
    with an equal value. *)
Definition match_ (lookupObj entity : gmap string num) : bool :=
  forallb (λ kv, bool_decide (entity !! kv.1 = Some kv.2)) (map_to_list lookupObj).

(** Modelled from the spec: the ascending order of lodash's comparator on
    the values of one sort key; a record without the key ([undefined])
    sorts after every number. *)
Definition compareAscending (value other : option num) : comparison :=
  match value, other with
  | None, None => Eq
  | None, Some _ => Gt
  | Some _, None => Lt
  | Some a, Some b => if num_ltb a b then Lt else if num_ltb b a then Gt else Eq
  end.

(** The sort keys applied left to right, each one breaking the ties of
    those before it. *)
Fixpoint compareMultiple (props : list string) (object other : gmap string num)
  : comparison :=
  match props with
  | [] => Eq
  | k :: ks =>
      match compareAscending (object !! k) (other !! k) with
      | Eq => compareMultiple ks object other
      | c => c
      end
  end.

(** Insert [x] before the first element that is not smaller: [x] stays
    in front of the elements of [l] it ties with, which came after it. *)
Fixpoint sort_insert (props : list string) (x : gmap string num)
    (l : list (gmap string num)) : list (gmap string num) :=
  match l with
  | [] => [x]
  | y :: l' =>
      match compareMultiple props x y with
      | Gt => y :: sort_insert props x l'
      | _ => x :: l
      end
  end.

(** Modelled from the spec: lodash's [sortByAll(collection, props)], a
    stable ascending multi-key sort (section 4.1, Reorder). *)
Definition sortByAll (collection : list (gmap string num)) (props : list string)
  : list (gmap string num) :=
  foldr (sort_insert props) [] collection.

(** Modelled from the spec: lodash's [omit(object, props)], the object
    without the listed keys. *)
Definition omit (object : gmap num (gmap string num)) (props : list num)
  : gmap num (gmap string num) :=
  foldr delete object props.

(** Modelled from the spec: [Entity] of [Entity.js], the snapshot of the
    properties it was constructed with (section 4.3); its manager is the
    one manager of the session. *)
Record Entity : Type := new_Entity { fields : gmap string num }.

(** Modelled from the spec: [QuerySet] of [QuerySet.js], an ordered
    sequence of ids bound to its manager (section 4.2). *)
Record QuerySet : Type := new_QuerySet { qs_idArr : list num }.

Definition _getQuerySet (m : EntityManager) : QuerySet :=
  new_QuerySet (getIdArray m).

(** Modelled from the spec: [QuerySet.exists], true iff the sequence is
    not empty, and [QuerySet.count], its length. *)
Definition QuerySet_exists (q : QuerySet) : bool :=
  match qs_idArr q with [] => false | _ => true end.
Definition QuerySet_count (q : QuerySet) : nat := length (qs_idArr q).

(** Modelled from the spec: [QuerySet.at], the entity of the id at a
    position, or [IndexOutOfRangeError]. *)
Definition QuerySet_at (m : EntityManager) (q : QuerySet) (index : nat)
  : result Entity :=
  match qs_idArr q !! index with
  | Some id => Ok (new_Entity (getFullEntity m id))
  | None => Throw IndexOutOfRangeError
  end.

(** Modelled from the spec: [QuerySet.first] and [QuerySet.last], the
    entities at the two ends of the sequence. *)
Definition QuerySet_first (m : EntityManager) (q : QuerySet) : result Entity :=
  QuerySet_at m q 0.
Definition QuerySet_last (m : EntityManager) (q : QuerySet) : result Entity :=
  match qs_idArr q with
  | [] => Throw IndexOutOfRangeError
  | _ => QuerySet_at m q (length (qs_idArr q) - 1)
  end.

(** Modelled from the spec: [QuerySet.filter] and [QuerySet.exclude]. *)
Definition QuerySet_filter (m : EntityManager) (q : QuerySet)
    (lookupObj : gmap string num) : QuerySet :=
  new_QuerySet (filter (λ id, match_ lookupObj (getFullEntity m id) = true) (qs_idArr q)).
Definition QuerySet_exclude (m : EntityManager) (q : QuerySet)
    (lookupObj : gmap string num) : QuerySet :=
  new_QuerySet (filter (λ id, match_ lookupObj (getFullEntity m id) ≠ true) (qs_idArr q)).

(** Appending a record to [this.mutations]. *)
Definition push (m : EntityManager) (a : Action) : EntityManager :=
  {| schema := schema m; tree := tree m; mutations := mutations m ++ [a] |}.

(** Modelled from the spec: [QuerySet.update] and [QuerySet.delete] append
    a record scoped to the ids of the QuerySet to the manager's log. *)
Definition QuerySet_update (m : EntityManager) (q : QuerySet) (updater : Updater)
  : EntityManager :=
  push m (UPDATE (qs_idArr q) updater).
Definition QuerySet_delete (m : EntityManager) (q : QuerySet) : EntityManager :=
  push m (DELETE (qs_idArr q)).

(** ** Queries of the manager *)

Definition exists_ (m : EntityManager) : bool := QuerySet_exists (_getQuerySet m).
Definition count (m : EntityManager) : nat := QuerySet_count (_getQuerySet m).
Definition at_ (m : EntityManager) (index : nat) : result Entity :=
  QuerySet_at m (_getQuerySet m) index.
Definition first (m : EntityManager) : result Entity :=
  QuerySet_first m (_getQuerySet m).
Definition last_ (m : EntityManager) : result Entity :=
  QuerySet_last m (_getQuerySet m).
Definition all (m : EntityManager) : QuerySet := _getQuerySet m.
Definition filter_ (m : EntityManager) (lookupObj : gmap string num) : QuerySet :=
  QuerySet_filter m (_getQuerySet m) lookupObj.
Definition exclude (m : EntityManager) (lookupObj : gmap string num) : QuerySet :=
  QuerySet_exclude m (_getQuerySet m) lookupObj.

Definition get (m : EntityManager) (lookupObj : gmap string num) : result Entity :=
  if negb (exists_ m) then Throw EmptyStoreError
  else
    let idAttribute := getIdAttribute m in
    match lookupObj !! idAttribute with
    | Some id =>
        (* keys.includes(idAttribute) *)
        Ok (new_Entity (getFullEntity m id))
    | None =>
        match List.find (λ entity, match_ lookupObj entity) (getFullEntities m) with
        | Some found => Ok (new_Entity found)
        | None => Throw EntityNotFoundError
        end
    end.

(** ** Writes: each one records a mutation *)

Definition create (m : EntityManager) (props : gmap string num)
  : EntityManager * Entity :=
  (push m (CREATE props), new_Entity props).

Definition setOrder (m : EntityManager) (arg : list string) : EntityManager :=
  push m (ORDER arg).

Definition delete_ (m : EntityManager) : EntityManager :=
  QuerySet_delete m (_getQuerySet m).

Definition update (m : EntityManager) (updater : Updater) : EntityManager :=
  QuerySet_update m (_getQuerySet m) updater.

(** ** Reduction *)

Definition reduceIdArray (m : EntityManager) (idArr : list num) (action : Action)
  : list num :=
  match action with
  | CREATE _ => idArr ++ [nextId m]
  | DELETE idsToDelete =>
      (* idArr.filter(id => !idsToDelete.includes(id)) *)
      filter (λ id, id ∉ idsToDelete) idArr
  | ORDER payload =>
      let entities := sortByAll (getFullEntities m) payload in
      (λ entity : gmap string num, entity !!! getIdAttribute m) <$> entities
  | _ => idArr
  end.

Definition mapper (updater : Updater) (entity : option (gmap string num))
  : result (gmap string num) :=
  match updater with
  | ReplaceFn f => f entity
  | MergePatch patch =>
      (* Object.assign({}, entity, action.payload.updater) *)
      Ok (patch ∪ default ∅ entity)
  end.

(** The [forEach] loop filling [updatedMap]. *)
Fixpoint forEach_update (updater : Updater) (entityMap : gmap num (gmap string num))
    (ids : list num) (updatedMap : gmap num (gmap string num))
  : result (gmap num (gmap string num)) :=
  match ids with
  | [] => Ok updatedMap
  | _id :: rest =>
      v ← mapper updater (entityMap !! _id);
      forEach_update updater entityMap rest (<[_id := v]> updatedMap)
  end.

Definition reduceEntityMap (m : EntityManager) (entityMap : gmap num (gmap string num))
    (action : Action) : result (gmap num (gmap string num)) :=
  match action with
  | CREATE payload =>
      let id := nextId m in
      Ok (<[id := payload]> entityMap)
  | UPDATE ids updater =>
      updatedMap ← forEach_update updater entityMap ids ∅;
      Ok (updatedMap ∪ entityMap)
  | DELETE idsToDelete => Ok (omit entityMap idsToDelete)
  | _ => Ok entityMap
  end.

(** One step of the fold: the callback given to [this.mutations.reduce]. *)
Definition reduce_step (m : EntityManager) (state : Tree) (action : Action)
  : result Tree :=
  let arr := reduceIdArray m (idArr state) action in
  map ← reduceEntityMap m (entityMap state) action;
  Ok {| idArr := arr; entityMap := map |}.

(** The fold over a log, from a running state. *)
Fixpoint reduce_from (m : EntityManager) (state : Tree) (log : list Action)
  : result Tree :=
  match log with
  | [] => Ok state
  | action :: rest =>
      next ← reduce_step m state action;
      reduce_from m next rest
  end.

Definition reduce (m : EntityManager) : result Tree :=
  reduce_from m (getEntityTree m) (mutations m).


(** ** The branch-state invariant and the shape of well-formed data *)

(** Section 3: the keys of the map are the elements of the sequence, and
    the sequence has no duplicates (the keys of a map never have). *)
Definition branch_inv (state : Tree) : Prop :=
  NoDup (idArr state) ∧ dom (entityMap state) = list_to_set (idArr state).

(** Section 3: the map sends an id to a record of attributes excluding the
    id attribute itself. *)
Definition attrs_exclude_id (m : EntityManager) : Prop :=
  ∀ id entity, getEntityMap m !! id = Some entity →
               entity !! getIdAttribute m = None.

#[global] Instance attrs_exclude_id_dec m : Decision (attrs_exclude_id m).
Proof.
  refine (cast_if (decide (map_Forall
            (λ (_ : num) (entity : gmap string num), entity !! getIdAttribute m = None)
            (getEntityMap m)))); assumption.
Defined.

(** The ids of the full-entity views sorted by [sortKeys]: what an [ORDER]
    record makes the id array. *)
Definition sortedIds (m : EntityManager) (sortKeys : list string) : list num :=
  (λ entity : gmap string num, entity !!! getIdAttribute m)
    <$> sortByAll (getFullEntities m) sortKeys.

(** [a] does not sort after [b]. *)
Definition sorts_le (sortKeys : list string) (a b : gmap string num) : Prop :=
  compareMultiple sortKeys a b ≠ Gt.

(** The log has no updater function, which is the only code that can
    throw during the fold. *)
Definition no_updater_function (action : Action) : Prop :=
  match action with
  | UPDATE _ (ReplaceFn _) => False
  | _ => True
  end.

(** A fold step that keeps the invariant: a Create whose id, allocated on
    the original branch, is not yet in the running sequence; an Update of
    ids of the running sequence; any Delete; a Reorder when the running
    sequence is still a permutation of the original one; any other record. *)
Definition safe_step (m : EntityManager) (state : Tree) (action : Action) : Prop :=
  match action with
  | CREATE _ => nextId m ∉ idArr state
  | UPDATE ids _ => Forall (λ id, id ∈ idArr state) ids
  | DELETE _ => True
  | ORDER _ => attrs_exclude_id m ∧ idArr state ≡ₚ getIdArray m
  | UNKNOWN _ => True
  end.

#[global] Instance safe_step_dec m state action : Decision (safe_step m state action).
Proof. destruct action; simpl; apply _. Defined.

(** Every step of the fold of [log] from [state] is safe, up to the step
    where an updater function throws, if one does. *)
Fixpoint safe_log (m : EntityManager) (state : Tree) (log : list Action) : Prop :=
  match log with
  | [] => True
  | action :: rest =>
      safe_step m state action ∧
      match reduce_step m state action with
      | Ok next => safe_log m next rest
      | Throw _ => True
      end
  end.

#[global] Instance safe_log_dec m state log : Decision (safe_log m state log).
Proof.
  revert state. induction log as [|action rest IH]; intros state; simpl; [apply _|].
  destruct (reduce_step m state action); apply _.
Defined.

(** ** Sessions: a sequence of write calls *)

Inductive Write : Type :=
  | W_create (props : gmap string num)
  | W_setOrder (arg : list string)
  | W_update (q : QuerySet) (updater : Updater)
  | W_delete (q : QuerySet).

Definition do_write (m : EntityManager) (w : Write) : EntityManager :=
  match w with
  | W_create props => (create m props).1
  | W_setOrder arg => setOrder m arg
  | W_update q updater => QuerySet_update m q updater
  | W_delete q => QuerySet_delete m q
  end.

Definition record_of (w : Write) : Action :=
  match w with
  | W_create props => CREATE props
  | W_setOrder arg => ORDER arg
  | W_update q updater => UPDATE (qs_idArr q) updater
  | W_delete q => DELETE (qs_idArr q)
  end.

Definition session (m : EntityManager) (ws : list Write) : EntityManager :=
  foldl do_write m ws.

(** ** Sample data *)

Definition sample_schema : Schema :=
  {| idAttribute := "id"; arrName := "items"; mapName := "itemsById" |}.

Definition empty_tree : Tree := {| idArr := []; entityMap := ∅ |}.

(** One entity, [{id: 1, a: 1, b: 2}]. *)
Definition one_tree : Tree :=
  {| idArr := [Fin 1];
     entityMap := {[ Fin 1 := {[ "a" := Fin 1; "b" := Fin 2 ]} ]} |}.

(** Three entities, out of order on [a] and with a tie. *)
Definition three_tree : Tree :=
  {| idArr := [Fin 1; Fin 2; Fin 3];
     entityMap := {[ Fin 1 := {[ "a" := Fin 7 ]};
                     Fin 2 := {[ "a" := Fin 4 ]};
                     Fin 3 := {[ "a" := Fin 4; "b" := Fin 0 ]} ]} |}.

(** A session on [three_tree] all of whose steps are safe. *)
Definition safe_session : EntityManager :=
  session (new_EntityManager sample_schema three_tree)
    [W_setOrder ["a"]; W_create {[ "a" := Fin 0 ]};
     W_update (new_QuerySet [Fin 1; Fin 4]) (MergePatch {[ "a" := Fin 9 ]});
     W_delete (new_QuerySet [Fin 2; Fin 8])].

(** ** The two halves of the fold, each on its own *)

(** The fold of [reduceEntityMap] alone over a log. *)
Fixpoint reduceEntityMap_fold (m : EntityManager)
    (entityMap : gmap num (gmap string num)) (log : list Action)
  : result (gmap num (gmap string num)) :=
  match log with
  | [] => Ok entityMap
  | action :: rest =>
      next ← reduceEntityMap m entityMap action;
      reduceEntityMap_fold m next rest
  end.

(** A record that lists no id, or whose type no reducer knows. *)
Definition noop_record (action : Action) : Prop :=
  match action with
  | UNKNOWN _ => True
  | DELETE [] => True
  | UPDATE [] _ => True
  | _ => False
  end.

#[global] Instance noop_record_dec action : Decision (noop_record action).
Proof. destruct action as [|[|]|[|]| |]; simpl; apply _. Defined.

(** A function updater that counts: it adds one to the attribute [n] of the
    record it is given, and throws on [undefined]. *)
Definition bump (entity : option (gmap string num)) : result (gmap string num) :=
  match entity with
  | Some e => Ok (<[ "n" := num_succ (default (Fin 0) (e !! "n")) ]> e)
  | None => Throw UpdaterError
  end.

(** * Properties *)

(** ** Numbers and id allocation *)

Lemma num_ltb_irrefl a : num_ltb a a = false.
Proof. destruct a; simpl; [done|]. apply bool_decide_eq_false. lia. Qed.

Lemma num_ltb_trans a b c : num_ltb a b = true → num_ltb b c = true → num_ltb a c = true.
Proof.
  destruct a, b, c; simpl; try done.
  rewrite !bool_decide_eq_true. lia.
Qed.

Lemma num_ltb_asym a b : num_ltb a b = true → num_ltb b a = false.
Proof.
  destruct a, b; simpl; try done.
  rewrite bool_decide_eq_true, bool_decide_eq_false. lia.
Qed.

Lemma num_ltb_total a b : num_ltb a b = false → num_ltb b a = false → a = b.
Proof.
  destruct a, b; simpl; try done.
  rewrite !bool_decide_eq_false. intros. f_equal. lia.
Qed.

Lemma num_max_ge_elem l x : x ∈ l → num_ltb (Math_max l) x = false.
Proof.
  induction l as [|y l IH]; [by intros ?%elem_of_nil|].
  intros [->|Hx]%elem_of_cons; simpl; unfold num_max.
  - destruct (num_ltb y (Math_max l)) eqn:E; [by apply num_ltb_asym|apply num_ltb_irrefl].
  - specialize (IH Hx). destruct (num_ltb y (Math_max l)) eqn:E; [done|].
    destruct (num_ltb y x) eqn:E2; [|done].
    destruct (num_ltb (Math_max l) y) eqn:E3.
    + by rewrite (num_ltb_trans _ _ _ E3 E2) in IH.
    + by rewrite <- (num_ltb_total _ _ E E3), E2 in IH.
Qed.

Lemma Math_max_elem l : l ≠ [] → Math_max l ∈ l.
Proof.
  induction l as [|y l IH]; [done|intros _].
  simpl. unfold num_max. destruct (num_ltb y (Math_max l)) eqn:E; [|left].
  destruct l as [|z l]; [by destruct y|]. right. by apply IH.
Qed.

(** On a sequence with a finite id, the allocated id is one more than the
    greatest id, and is fresh. *)
Lemma nextId_finite m z :
  Fin z ∈ getIdArray m →
  ∃ top, Math_max (getIdArray m) = Fin top ∧ Fin top ∈ getIdArray m ∧
         nextId m = Fin (top + 1) ∧ nextId m ∉ getIdArray m.
Proof.
  intros Hz. unfold nextId.
  pose proof (num_max_ge_elem _ _ Hz) as Hge.
  destruct (Math_max (getIdArray m)) as [|top] eqn:E; [done|].
  exists top. split_and!; [done| |done|].
  - rewrite <- E. apply Math_max_elem. by intros Hnil; rewrite Hnil in Hz; apply elem_of_nil in Hz.
  - intros Hin. apply num_max_ge_elem in Hin. rewrite E in Hin. simpl in Hin.
    apply bool_decide_eq_false in Hin. lia.
Qed.

Lemma nextId_empty m : getIdArray m = [] → nextId m = NegInf.
Proof. unfold nextId. by intros ->. Qed.

(** ** Writes only grow the log *)

Lemma session_frame m ws :
  schema (session m ws) = schema m ∧ tree (session m ws) = tree m ∧
  mutations (session m ws) = mutations m ++ (record_of <$> ws).
Proof.
  unfold session. revert m. induction ws as [|w ws IH]; intros m; simpl.
  - by rewrite app_nil_r.
  - destruct (IH (do_write m w)) as (Hs & Ht & Hm).
    rewrite Hs, Ht, Hm. by destruct w; simpl; rewrite <- app_assoc.
Qed.

(** The reducers read the manager's schema and branch, never its log. *)
Lemma reduce_step_ext m m' state action :
  schema m = schema m' → tree m = tree m' →
  reduce_step m state action = reduce_step m' state action.
Proof.
  destruct m, m'; simpl; intros -> ->. by destruct action.
Qed.

Lemma reduce_from_ext m m' state log :
  schema m = schema m' → tree m = tree m' →
  reduce_from m state log = reduce_from m' state log.
Proof.
  intros Hs Ht. revert state. induction log as [|a log IH]; intros state; [done|].
  simpl. rewrite (reduce_step_ext m m' state a Hs Ht).
  destruct (reduce_step m' state a); simpl; [apply IH|done].
Qed.

Lemma reduce_session m ws :
  reduce (session m ws) = reduce_from m (tree m) (mutations m ++ (record_of <$> ws)).
Proof.
  unfold reduce, getEntityTree.
  destruct (session_frame m ws) as (Hs & Ht & Hm). rewrite Ht, Hm.
  by apply reduce_from_ext.
Qed.

Lemma reduce_from_app m state l1 l2 :
  reduce_from m state (l1 ++ l2) =
  reduce_from m state l1 ≫= λ mid, reduce_from m mid l2.
Proof.
  revert state. induction l1 as [|a l1 IH]; intros state; [done|].
  simpl. destruct (reduce_step m state a); simpl; [apply IH|done].
Qed.

(** The fold has no failure path of its own: it returns unless an updater
    function throws. *)
Lemma reduce_step_total m state action :
  no_updater_function action → ∃ next, reduce_step m state action = Ok next.
Proof.
  destruct action as [p|ids [patch|f]|ids|keys|ty]; simpl; try by eauto.
  intros _. unfold reduce_step; simpl.
  cut (∀ acc, ∃ um, forEach_update (MergePatch patch) (entityMap state) ids acc = Ok um).
  { intros H. destruct (H ∅) as [um ->]. simpl. eauto. }
  induction ids as [|i ids IH]; intros acc; simpl; eauto.
Qed.

Lemma reduce_from_total m state log :
  Forall no_updater_function log → ∃ final, reduce_from m state log = Ok final.
Proof.
  intros H. revert state. induction H as [|a log Ha _ IH]; intros state; simpl; [eauto|].
  destruct (reduce_step_total m state a Ha) as [next ->]. simpl. apply IH.
Qed.

(** ** Queued creates *)

Lemma reduce_from_creates m state ps :
  reduce_from m state (CREATE <$> ps) =
  Ok {| idArr := idArr state ++ replicate (length ps) (nextId m);
        entityMap := match last ps with
                     | Some p => <[nextId m := p]> (entityMap state)
                     | None => entityMap state
                     end |}.
Proof.
  revert state. induction ps as [|p ps IH]; intros state; simpl.
  - rewrite app_nil_r. by destruct state.
  - unfold reduce_step; simpl. rewrite IH; simpl.
    rewrite <- app_assoc. do 2 f_equal.
    destruct ps as [|q ps]; simpl; [done|].
    destruct (last (q :: ps)) eqn:E; [by rewrite insert_insert_eq|].
    by apply last_None in E.
Qed.

(** C1 (the code departs from it). [N] creates queued in one session all
    receive the one id allocated from the original branch: the reduced id
    array is the original one followed by [N] copies of that id, and the map
    keeps a single record for it, the last one created. So for [N >= 2] the
    ids are not distinct and not consecutive. *)
Theorem C1_queued_creates_share_one_id
    (s : Schema) (t : Tree) (ps : list (gmap string num)) :
  reduce (session (new_EntityManager s t) (W_create <$> ps)) =
  Ok {| idArr := idArr t ++ replicate (length ps) (nextId (new_EntityManager s t));
        entityMap := match last ps with
                     | Some p => <[nextId (new_EntityManager s t) := p]> (entityMap t)
                     | None => entityMap t
                     end |}.
Proof.
  rewrite reduce_session. simpl.
  rewrite <- list_fmap_compose.
  apply (reduce_from_creates (new_EntityManager s t) t ps).
Qed.

(** Two creates on the branch [{1}]: the id 2 is allocated twice. *)
Example two_creates_collide :
  reduce (session (new_EntityManager sample_schema one_tree)
                  [W_create {[ "a" := Fin 5 ]}; W_create {[ "a" := Fin 6 ]}]) =
  Ok {| idArr := [Fin 1; Fin 2; Fin 2];
        entityMap := <[Fin 2 := {[ "a" := Fin 6 ]}]> (entityMap one_tree) |}.
Proof. reflexivity. Qed.

(** C2 (the code departs from it). On an empty id sequence the allocated
    id is [-Infinity + 1 = -Infinity], not a finite origin: one create on
    an empty branch reduces to the sequence [[-Infinity]] and a map keyed
    by [-Infinity]. *)
Theorem C2_create_on_empty_branch (s : Schema) (props : gmap string num) :
  nextId (new_EntityManager s empty_tree) = NegInf ∧
  reduce (create (new_EntityManager s empty_tree) props).1 =
  Ok {| idArr := [NegInf]; entityMap := {[ NegInf := props ]} |}.
Proof. split; reflexivity. Qed.

(** The id once allocated on an empty branch is allocated again by every
    later session. *)
Example create_after_empty_create (s : Schema) (props : gmap string num) :
  reduce (create (new_EntityManager s {| idArr := [NegInf];
                                           entityMap := {[ NegInf := props ]} |})
                 props).1 =
  Ok {| idArr := [NegInf; NegInf]; entityMap := {[ NegInf := props ]} |}.
Proof.
  unfold reduce, reduce_from, reduce_step; simpl.
  unfold nextId; simpl. by rewrite insert_singleton_eq.
Qed.

(** ** The multi-key sort *)

Lemma compareAscending_Eq a b : compareAscending a b = Eq ↔ a = b.
Proof.
  destruct a as [a|], b as [b|]; simpl; try done.
  split.
  - destruct (num_ltb a b) eqn:E1; [done|].
    destruct (num_ltb b a) eqn:E2; [done|].
    intros _. f_equal. by apply num_ltb_total.
  - intros [= ->]. by rewrite num_ltb_irrefl.
Qed.

Lemma compareAscending_antisym a b :
  compareAscending b a = CompOpp (compareAscending a b).
Proof.
  destruct a as [a|], b as [b|]; simpl; try done.
  destruct (num_ltb a b) eqn:E1.
  - by rewrite (num_ltb_asym _ _ E1).
  - by destruct (num_ltb b a).
Qed.

Lemma compareAscending_Lt_trans a b c :
  compareAscending a b = Lt → compareAscending b c = Lt → compareAscending a c = Lt.
Proof.
  destruct a as [a|], b as [b|], c as [c|]; simpl; try done.
  destruct (num_ltb a b) eqn:E1; [|by destruct (num_ltb b a)].
  destruct (num_ltb b c) eqn:E2; [|by destruct (num_ltb c b)].
  by rewrite (num_ltb_trans _ _ _ E1 E2).
Qed.

Section multi_key_sort.
Variable props : list string.

(** Two records tie on the sort keys iff they agree on every one of them. *)
Lemma compareMultiple_Eq a b :
  compareMultiple props a b = Eq ↔ Forall (λ k, a !! k = b !! k) props.
Proof.
  induction props as [|k ks IH]; simpl; [by split|].
  rewrite Forall_cons, <- IH, <- compareAscending_Eq.
  destruct (compareAscending (a !! k) (b !! k)); intuition congruence.
Qed.

Lemma compareMultiple_refl a : compareMultiple props a a = Eq.
Proof. apply compareMultiple_Eq. by apply Forall_forall. Qed.

Lemma compareMultiple_antisym a b :
  compareMultiple props b a = CompOpp (compareMultiple props a b).
Proof.
  induction props as [|k ks IH]; simpl; [done|].
  rewrite (compareAscending_antisym (a !! k) (b !! k)).
  by destruct (compareAscending (a !! k) (b !! k)).
Qed.

Lemma compareMultiple_Eq_l a b c :
  compareMultiple props a b = Eq → compareMultiple props a c = compareMultiple props b c.
Proof.
  induction props as [|k ks IH]; simpl; [done|].
  destruct (compareAscending (a !! k) (b !! k)) eqn:E; try done.
  apply compareAscending_Eq in E. rewrite E. intros H.
  by rewrite (IH H).
Qed.

Lemma compareMultiple_Eq_r a b c :
  compareMultiple props b c = Eq → compareMultiple props a b = compareMultiple props a c.
Proof.
  intros H. rewrite (compareMultiple_antisym b a), (compareMultiple_antisym c a).
  f_equal. by apply compareMultiple_Eq_l.
Qed.

Lemma compareMultiple_Lt_trans a b c :
  compareMultiple props a b = Lt → compareMultiple props b c = Lt →
  compareMultiple props a c = Lt.
Proof.
  induction props as [|k ks IH]; simpl; [done|].
  destruct (compareAscending (a !! k) (b !! k)) eqn:E1; try done;
    destruct (compareAscending (b !! k) (c !! k)) eqn:E2; try done.
  - apply compareAscending_Eq in E1, E2. rewrite E1, E2.
    rewrite (proj2 (compareAscending_Eq (c !! k) (c !! k)) eq_refl). apply IH.
  - apply compareAscending_Eq in E1. by rewrite E1, E2.
  - apply compareAscending_Eq in E2. by rewrite <- E2, E1.
  - by rewrite (compareAscending_Lt_trans _ _ _ E1 E2).
Qed.

Lemma sorts_le_trans a b c :
  sorts_le props a b → sorts_le props b c → sorts_le props a c.
Proof.
  unfold sorts_le. intros Hab Hbc.
  destruct (compareMultiple props a b) eqn:E1; [| |done].
  - by rewrite (compareMultiple_Eq_l _ _ c E1).
  - destruct (compareMultiple props b c) eqn:E2; [| |done].
    + by rewrite <- (compareMultiple_Eq_r a _ _ E2), E1.
    + by rewrite (compareMultiple_Lt_trans _ _ _ E1 E2).
Qed.

Lemma sort_insert_perm x l : sort_insert props x l ≡ₚ x :: l.
Proof.
  induction l as [|y l IH]; simpl; [done|].
  destruct (compareMultiple props x y); try done.
  by rewrite IH, Permutation_swap.
Qed.

Lemma sortByAll_perm collection : sortByAll collection props ≡ₚ collection.
Proof.
  induction collection as [|x l IH]; simpl; [done|].
  fold (sortByAll l props). by rewrite sort_insert_perm, IH.
Qed.

Lemma sort_insert_sorted x l :
  StronglySorted (sorts_le props) l →
  StronglySorted (sorts_le props) (sort_insert props x l).
Proof.
  induction 1 as [|y l Hl IH Hy]; simpl; [by repeat constructor|].
  destruct (compareMultiple props x y) eqn:E.
  - constructor; [by constructor|]. constructor; [unfold sorts_le; by rewrite E|].
    eapply Forall_impl; [exact Hy|]. intros z Hz.
    eapply sorts_le_trans; [|exact Hz]. unfold sorts_le. by rewrite E.
  - constructor; [by constructor|]. constructor; [unfold sorts_le; by rewrite E|].
    eapply Forall_impl; [exact Hy|]. intros z Hz.
    eapply sorts_le_trans; [|exact Hz]. unfold sorts_le. by rewrite E.
  - constructor; [done|].
    rewrite sort_insert_perm. constructor; [|done].
    unfold sorts_le. by rewrite (compareMultiple_antisym x y), E.
Qed.

(** The result is in ascending order of the sort keys. *)
Lemma sortByAll_sorted collection :
  StronglySorted (sorts_le props) (sortByAll collection props).
Proof.
  induction collection as [|x l IH]; simpl; [constructor|].
  by apply sort_insert_sorted.
Qed.

Lemma sort_insert_stable z x l :
  filter (λ y, compareMultiple props z y = Eq) (sort_insert props x l) =
  filter (λ y, compareMultiple props z y = Eq) (x :: l).
Proof.
  induction l as [|y l IH]; simpl; [done|].
  destruct (compareMultiple props x y) eqn:E; try done.
  rewrite (filter_cons _ y), IH, !(filter_cons _ x), (filter_cons _ y).
  destruct (decide (compareMultiple props z y = Eq)) as [Hy|Hy]; [|done].
  destruct (decide (compareMultiple props z x = Eq)) as [Hx|Hx]; [|done].
  rewrite (compareMultiple_antisym x z) in Hx.
  destruct (compareMultiple props x z) eqn:E2; try done.
  by rewrite (compareMultiple_Eq_l _ _ y E2), Hy in E.
Qed.

(** The sort is stable: the records that tie with [z] on the sort keys
    keep the order they had in the collection. *)
Lemma sortByAll_stable z collection :
  filter (λ y, compareMultiple props z y = Eq) (sortByAll collection props) =
  filter (λ y, compareMultiple props z y = Eq) collection.
Proof.
  induction collection as [|x l IH]; simpl; [done|].
  fold (sortByAll l props). by rewrite sort_insert_stable, !filter_cons, IH.
Qed.

End multi_key_sort.

(** ** Reorder *)

Lemma getFullEntity_id m id :
  attrs_exclude_id m → getFullEntity m id !! getIdAttribute m = Some id.
Proof.
  intros Hex. unfold getFullEntity.
  rewrite lookup_union_r, lookup_singleton_eq; [done|].
  destruct (getEntityMap m !! id) as [e|] eqn:E; simpl; [by eapply Hex|done].
Qed.

Lemma sortByAll_views m sortKeys entity :
  entity ∈ sortByAll (getFullEntities m) sortKeys →
  ∃ id, id ∈ getIdArray m ∧ entity = getFullEntity m id.
Proof.
  rewrite sortByAll_perm. unfold getFullEntities.
  intros (id & -> & Hid)%list_elem_of_fmap. eauto.
Qed.

(** The views of the sorted ids are the sorted views. *)
Lemma sortedIds_views m sortKeys :
  attrs_exclude_id m →
  getFullEntity m <$> sortedIds m sortKeys = sortByAll (getFullEntities m) sortKeys.
Proof.
  intros Hex. unfold sortedIds. rewrite <- list_fmap_compose.
  rewrite <- (list_fmap_id (sortByAll _ _)) at 2.
  apply list_fmap_ext. intros i entity Hi.
  apply list_elem_of_lookup_2, sortByAll_views in Hi as (id & _ & ->).
  simpl. unfold lookup_total, map_lookup_total.
  by rewrite getFullEntity_id.
Qed.

Lemma sortedIds_perm m sortKeys :
  attrs_exclude_id m → sortedIds m sortKeys ≡ₚ getIdArray m.
Proof.
  intros Hex. unfold sortedIds. rewrite sortByAll_perm.
  unfold getFullEntities. rewrite <- list_fmap_compose.
  rewrite <- (list_fmap_id (getIdArray m)) at 2.
  assert (((λ entity : gmap string num, entity !!! getIdAttribute m) ∘ getFullEntity m)
            <$> getIdArray m = id <$> getIdArray m) as ->; [|done].
  apply list_fmap_ext. intros i x _. simpl.
  unfold lookup_total, map_lookup_total. by rewrite getFullEntity_id.
Qed.

Lemma reduce_step_ORDER m state sortKeys :
  reduce_step m state (ORDER sortKeys) =
  Ok {| idArr := sortedIds m sortKeys; entityMap := entityMap state |}.
Proof. reflexivity. Qed.

(** C5. On a branch whose records exclude the id attribute (section 3), one
    [setOrder(sortKeys)] and then [reduce()] leaves the map as it was and
    makes the id array a permutation of itself: the ids whose full-entity
    views are the views sorted by [sortKeys], in ascending order, the ties
    on all the keys kept in their original order. *)
Theorem C5_setOrder_is_a_stable_sort
    (s : Schema) (t : Tree) (sortKeys : list string) :
  attrs_exclude_id (new_EntityManager s t) →
  ∃ st,
    reduce (setOrder (new_EntityManager s t) sortKeys) = Ok st ∧
    entityMap st = entityMap t ∧
    idArr st ≡ₚ idArr t ∧
    getFullEntity (new_EntityManager s t) <$> idArr st =
      sortByAll (getFullEntities (new_EntityManager s t)) sortKeys ∧
    StronglySorted (sorts_le sortKeys)
      (getFullEntity (new_EntityManager s t) <$> idArr st) ∧
    ∀ z, filter (λ y, compareMultiple sortKeys z y = Eq)
           (getFullEntity (new_EntityManager s t) <$> idArr st) =
         filter (λ y, compareMultiple sortKeys z y = Eq)
           (getFullEntity (new_EntityManager s t) <$> idArr t).
Proof.
  intros Hex. set (m := new_EntityManager s t) in *.
  exists {| idArr := sortedIds m sortKeys; entityMap := entityMap t |}.
  split; [reflexivity|]. split; [done|]. simpl.
  split; [exact (sortedIds_perm m sortKeys Hex)|].
  rewrite (sortedIds_views m sortKeys Hex).
  split; [done|]. split; [apply sortByAll_sorted|].
  intros z. apply sortByAll_stable.
Qed.

(** Where a stored record does carry the id attribute, [getFullEntity]
    lets it override the id, and a Reorder writes that value into the id
    array: the hypothesis of the theorem above is needed. *)
Example reorder_with_a_stored_id_attribute :
  reduce (setOrder (new_EntityManager sample_schema
                      {| idArr := [Fin 1];
                         entityMap := {[ Fin 1 := {[ "id" := Fin 7 ]} ]} |}) ["a"]) =
  Ok {| idArr := [Fin 7]; entityMap := {[ Fin 1 := {[ "id" := Fin 7 ]} ]} |}.
Proof. reflexivity. Qed.

(** C6. Whatever records were queued before it, a Reorder step makes the
    id array the sorted ids of the original branch: the fold of the log
    extended by [setOrder(sortKeys)] returns the map as the earlier records
    left it and the id array [sortedIds], which does not depend on the
    running state and, on a branch whose records exclude the id attribute,
    is a permutation of the original id array. *)
Theorem C6_reorder_reads_original_branch
    (m : EntityManager) (sortKeys : list string) :
  attrs_exclude_id m →
  (∀ running, reduceIdArray m running (ORDER sortKeys) = sortedIds m sortKeys) ∧
  (∀ st, reduce m = Ok st →
         reduce (setOrder m sortKeys) =
         Ok {| idArr := sortedIds m sortKeys; entityMap := entityMap st |}) ∧
  (Forall no_updater_function (mutations m) → ∃ st, reduce m = Ok st) ∧
  sortedIds m sortKeys ≡ₚ getIdArray m.
Proof.
  intros Hex. split_and!.
  - done.
  - intros st Hst. unfold reduce in *. simpl.
    rewrite reduce_from_app.
    rewrite (reduce_from_ext (setOrder m sortKeys) m) by done.
    unfold getEntityTree in *. simpl. rewrite Hst. done.
  - apply reduce_from_total.
  - by apply sortedIds_perm.
Qed.

(** A deleted id reappears, and a created id is dropped, when a Reorder
    follows in the same log. *)
Example reorder_after_delete_and_create :
  reduce (session (new_EntityManager sample_schema three_tree)
            [W_delete (new_QuerySet [Fin 2]); W_create {[ "a" := Fin 0 ]}]) =
  Ok {| idArr := [Fin 1; Fin 3; Fin 4];
        entityMap := {[ Fin 1 := {[ "a" := Fin 7 ]};
                        Fin 3 := {[ "a" := Fin 4; "b" := Fin 0 ]};
                        Fin 4 := {[ "a" := Fin 0 ]} ]} |} ∧
  reduce (session (new_EntityManager sample_schema three_tree)
            [W_delete (new_QuerySet [Fin 2]); W_create {[ "a" := Fin 0 ]};
             W_setOrder ["a"]]) =
  Ok {| idArr := [Fin 2; Fin 3; Fin 1];
        entityMap := {[ Fin 1 := {[ "a" := Fin 7 ]};
                        Fin 3 := {[ "a" := Fin 4; "b" := Fin 0 ]};
                        Fin 4 := {[ "a" := Fin 0 ]} ]} |}.
Proof. split; reflexivity. Qed.

(** ** Update *)

Lemma forEach_update_lookup updater entityMap ids acc updatedMap j :
  forEach_update updater entityMap ids acc = Ok updatedMap →
  (j ∉ ids → updatedMap !! j = acc !! j) ∧
  (j ∈ ids → ∃ v, mapper updater (entityMap !! j) = Ok v ∧ updatedMap !! j = Some v).
Proof.
  revert acc. induction ids as [|i ids IH]; intros acc; simpl.
  - intros [= ->]. split; [done|by intros ?%elem_of_nil].
  - destruct (mapper updater (entityMap !! i)) as [v|e] eqn:E; simpl; [|done].
    intros H. destruct (IH _ H) as [IHout IHin]. split.
    + intros Hj. rewrite not_elem_of_cons in Hj. destruct Hj as [Hji Hj].
      by rewrite (IHout Hj), lookup_insert_ne.
    + intros Hj. destruct (decide (j ∈ ids)) as [Hin|Hout]; [by apply IHin|].
      apply elem_of_cons in Hj as [->|Hj]; [|done].
      exists v. by rewrite (IHout Hout), lookup_insert_eq.
Qed.

Lemma reduceEntityMap_UPDATE_lookup m entityMap ids updater next j :
  reduceEntityMap m entityMap (UPDATE ids updater) = Ok next →
  (j ∉ ids → next !! j = entityMap !! j) ∧
  (j ∈ ids → ∃ v, mapper updater (entityMap !! j) = Ok v ∧ next !! j = Some v).
Proof.
  simpl. destruct (forEach_update updater entityMap ids ∅) as [um|e] eqn:E; simpl; [|done].
  intros [= <-]. destruct (forEach_update_lookup _ _ _ _ _ j E) as [Hout Hin]. split.
  - intros Hj. by rewrite lookup_union_r; [|rewrite (Hout Hj)].
  - intros Hj. destruct (Hin Hj) as (v & Hv & Hum). exists v. split; [done|].
    by rewrite (lookup_union_Some_l _ _ _ _ Hum).
Qed.

Lemma reduce_step_idArr m state action next :
  reduce_step m state action = Ok next →
  idArr next = reduceIdArray m (idArr state) action ∧
  reduceEntityMap m (entityMap state) action = Ok (entityMap next).
Proof.
  unfold reduce_step.
  destruct (reduceEntityMap m (entityMap state) action); simpl; [|done].
  by intros [= <-].
Qed.

(** C3 (as amended). An Update with a merge-patch that lists an id absent
    from the running map raises no error, leaves the id array and the
    entries of the ids it does not list as they were, and gives the absent
    id an entry: a copy of the patch. *)
Theorem C3_update_of_absent_id_inserts_the_patch
    (m : EntityManager) (state : Tree) (ids : list num)
    (patch : gmap string num) (id : num) :
  id ∈ ids → entityMap state !! id = None →
  ∃ next,
    reduce_step m state (UPDATE ids (MergePatch patch)) = Ok next ∧
    entityMap next !! id = Some patch ∧
    idArr next = idArr state ∧
    ∀ j, j ∉ ids → entityMap next !! j = entityMap state !! j.
Proof.
  intros Hin Hnone.
  destruct (reduce_step_total m state (UPDATE ids (MergePatch patch)) I) as [next Hnext].
  exists next. split; [done|].
  destruct (reduce_step_idArr _ _ _ _ Hnext) as [Harr Hmap].
  split_and!; [|done|].
  - destruct (reduceEntityMap_UPDATE_lookup _ _ _ _ _ id Hmap) as [_ H].
    destruct (H Hin) as (v & Hv & ->). simpl in Hv. rewrite Hnone in Hv. simpl in Hv.
    rewrite (right_id_L ∅ (∪)) in Hv. congruence.
  - intros j Hj. by destruct (reduceEntityMap_UPDATE_lookup _ _ _ _ _ j Hmap) as [-> _].
Qed.

(** C9. On a branch that stores [entity] under [id], an Update scoped to
    [id] with a merge-patch reduces to the same id array and to the map
    with [id] sent to the shallow merge: each key of the patch with the
    patch's value, every other key as [entity] had it; every other id keeps
    its record. *)
Theorem C9_merge_patch_update
    (s : Schema) (t : Tree) (id : num) (entity patch : gmap string num) :
  entityMap t !! id = Some entity →
  ∃ st,
    reduce (QuerySet_update (new_EntityManager s t) (new_QuerySet [id])
                            (MergePatch patch)) = Ok st ∧
    entityMap st !! id = Some (patch ∪ entity) ∧
    (∀ k, (patch ∪ entity) !! k =
          match patch !! k with Some v => Some v | None => entity !! k end) ∧
    (∀ j, j ≠ id → entityMap st !! j = entityMap t !! j) ∧
    idArr st = idArr t.
Proof.
  intros Hid.
  exists {| idArr := idArr t; entityMap := {[ id := patch ∪ entity ]} ∪ entityMap t |}.
  split_and!.
  - unfold reduce, reduce_from, reduce_step; simpl. rewrite Hid; simpl.
    by rewrite insert_empty.
  - simpl. by rewrite <- insert_union_singleton_l, lookup_insert_eq.
  - intros k. rewrite lookup_union. by destruct (patch !! k), (entity !! k).
  - intros j Hj. simpl. by rewrite <- insert_union_singleton_l, lookup_insert_ne.
  - done.
Qed.

(** ** The invariant along the fold *)

Lemma dom_omit entityMap ids :
  dom (omit entityMap ids) = dom entityMap ∖ list_to_set ids.
Proof.
  apply set_eq. intros j. rewrite elem_of_difference, elem_of_list_to_set, !elem_of_dom.
  unfold omit. destruct (decide (j ∈ ids)) as [Hj|Hj].
  - rewrite lookup_foldr_delete by done. split; [by intros [? ?]|by intros [_ ?]].
  - rewrite lookup_foldr_delete_not_elem_of by done. naive_solver.
Qed.

Lemma safe_step_inv m state action next :
  branch_inv state → safe_step m state action →
  reduce_step m state action = Ok next → branch_inv next.
Proof.
  intros [Hnd Hdom] Hsafe Hstep.
  destruct (reduce_step_idArr _ _ _ _ Hstep) as [Harr Hmap].
  unfold branch_inv. rewrite Harr.
  destruct action as [p|ids u|ids|keys|ty]; simpl in *.
  - injection Hmap as <-. split.
    + apply NoDup_app. split_and!; [done| |apply NoDup_singleton].
      intros x Hx ->%list_elem_of_singleton. done.
    + rewrite dom_insert_L, list_to_set_app_L, Hdom. simpl. set_solver.
  - split; [done|]. rewrite <- Hdom. apply set_eq. intros j.
    rewrite !elem_of_dom.
    destruct (reduceEntityMap_UPDATE_lookup m _ _ _ _ j Hmap) as [Hout Hin].
    destruct (decide (j ∈ ids)) as [Hj|Hj]; [|by rewrite (Hout Hj)].
    destruct (Hin Hj) as (v & _ & ->). split; [intros _|by eauto].
    apply elem_of_dom. rewrite Hdom. apply elem_of_list_to_set.
    by apply (proj1 (Forall_forall _ _) Hsafe).
  - injection Hmap as <-. split; [by apply NoDup_filter|].
    rewrite dom_omit, Hdom. apply set_eq. intros j.
    rewrite elem_of_difference, !elem_of_list_to_set, list_elem_of_filter. naive_solver.
  - injection Hmap as <-. destruct Hsafe as [Hex Hperm].
    fold (sortedIds m keys). rewrite (sortedIds_perm m keys Hex), <- Hperm. done.
  - by injection Hmap as <-.
Qed.

Lemma safe_log_inv m state log :
  branch_inv state → safe_log m state log →
  ∀ done_ rest st, log = done_ ++ rest → reduce_from m state done_ = Ok st →
                   branch_inv st.
Proof.
  revert state. induction log as [|a log IH]; intros state Hinv Hsafe done_ rest st Hlog.
  - symmetry in Hlog. apply app_eq_nil in Hlog as [-> _]. by intros [= <-].
  - destruct done_ as [|b done_]; [by intros [= <-]|].
    injection Hlog as -> ->. destruct Hsafe as [Ha Hrest]. simpl.
    destruct (reduce_step m state b) as [next|e] eqn:E; simpl; [|done].
    eapply IH; [by eapply safe_step_inv|exact Hrest|done].
Qed.

(** C4 (as amended). From a branch that satisfies the invariant, the state
    after every prefix of a log whose steps are all safe satisfies the
    invariant, the final state included; and when no record of the log
    carries an updater function the fold does return a final state. *)
Theorem C4_invariant_along_safe_logs (m : EntityManager) :
  branch_inv (getEntityTree m) →
  safe_log m (getEntityTree m) (mutations m) →
  (∀ done_ rest st,
     mutations m = done_ ++ rest →
     reduce_from m (getEntityTree m) done_ = Ok st → branch_inv st) ∧
  (Forall no_updater_function (mutations m) →
   ∃ st, reduce m = Ok st ∧ branch_inv st).
Proof.
  intros Hinv Hsafe. split.
  - by apply safe_log_inv.
  - intros Hno. destruct (reduce_from_total m (getEntityTree m) _ Hno) as [st Hst].
    exists st. split; [done|].
    eapply (safe_log_inv m _ _ Hinv Hsafe (mutations m) []); [by rewrite app_nil_r|done].
Qed.

(** ** Lookup *)

(** C7. On a branch whose id array is empty, [get] throws the empty-store
    error for every lookup object: the check comes before any matching. *)
Theorem C7_get_on_empty_branch (m : EntityManager) (lookupObj : gmap string num) :
  getIdArray m = [] → get m lookupObj = Throw EmptyStoreError.
Proof.
  intros Hnil. unfold get, exists_, QuerySet_exists, _getQuerySet. simpl.
  by rewrite Hnil.
Qed.

(** C8. On a non-empty branch, a lookup object that has the id-attribute
    key makes [get] return the entity built from the full-entity view of
    that id, whatever the other keys of the lookup are: the record stored
    under the id is part of the view, and the view carries the id itself
    when the stored records exclude the id attribute. *)
Theorem C8_get_by_id_attribute
    (m : EntityManager) (lookupObj : gmap string num) (id : num) :
  getIdArray m ≠ [] → lookupObj !! getIdAttribute m = Some id →
  get m lookupObj = Ok (new_Entity (getFullEntity m id)) ∧
  (∀ other, other !! getIdAttribute m = Some id → get m other = get m lookupObj) ∧
  (∀ entity, getEntityMap m !! id = Some entity → entity ⊆ getFullEntity m id) ∧
  (attrs_exclude_id m → getFullEntity m id !! getIdAttribute m = Some id).
Proof.
  intros Hne Hid.
  assert (∀ l, l !! getIdAttribute m = Some id →
               get m l = Ok (new_Entity (getFullEntity m id))) as Hget.
  { intros l Hl. unfold get, exists_, QuerySet_exists, _getQuerySet. simpl.
    destruct (getIdArray m); [done|]. simpl. by rewrite Hl. }
  split_and!.
  - by apply Hget.
  - intros other Hother. by rewrite !Hget.
  - intros entity Hent. unfold getFullEntity. rewrite Hent. simpl.
    apply map_union_subseteq_l.
  - intros Hex. by apply getFullEntity_id.
Qed.

(** ** Snapshot isolation of a session *)

(** C10. A sequence of writes leaves the branch as it was and appends one
    record per write to the log; every read of the manager gives afterwards
    what it gave before. *)
Theorem C10_writes_are_recorded_not_applied (m : EntityManager) (ws : list Write) :
  getEntityTree (session m ws) = getEntityTree m ∧
  mutations (session m ws) = mutations m ++ (record_of <$> ws) ∧
  getIdArray (session m ws) = getIdArray m ∧
  getEntityMap (session m ws) = getEntityMap m ∧
  getIdAttribute (session m ws) = getIdAttribute m ∧
  (∀ id, getFullEntity (session m ws) id = getFullEntity m id) ∧
  getFullEntities (session m ws) = getFullEntities m ∧
  nextId (session m ws) = nextId m ∧
  all (session m ws) = all m ∧
  (∀ lookupObj, filter_ (session m ws) lookupObj = filter_ m lookupObj) ∧
  (∀ lookupObj, exclude (session m ws) lookupObj = exclude m lookupObj) ∧
  exists_ (session m ws) = exists_ m ∧
  count (session m ws) = count m ∧
  (∀ index, at_ (session m ws) index = at_ m index) ∧
  first (session m ws) = first m ∧
  last_ (session m ws) = last_ m ∧
  (∀ lookupObj, get (session m ws) lookupObj = get m lookupObj).
Proof.
  destruct (session_frame m ws) as (Hs & Ht & Hm).
  split; [done|]. split; [done|].
  revert Hs Ht Hm. generalize (session m ws). intros m' Hs Ht _.
  destruct m as [s t l], m' as [s' t' l']. simpl in Hs, Ht. subst s' t'.
  repeat split.
Qed.

(** ** The claims at concrete inputs *)

Lemma one_tree_inv : branch_inv one_tree.
Proof.
  split; simpl.
  - apply NoDup_singleton.
  - rewrite dom_singleton_L. set_solver.
Qed.

Lemma three_tree_inv : branch_inv three_tree.
Proof.
  split; simpl.
  - repeat (constructor; [set_solver|]). constructor.
  - rewrite !dom_insert_L, dom_singleton_L. set_solver.
Qed.

Lemma three_tree_excludes_id ws :
  attrs_exclude_id (session (new_EntityManager sample_schema three_tree) ws).
Proof.
  intros id entity. destruct (session_frame (new_EntityManager sample_schema three_tree) ws)
    as (Hs & Ht & _).
  unfold getEntityMap, getEntityTree, getIdAttribute. rewrite Hs, Ht. simpl.
  intros H. repeat (apply lookup_insert_Some in H as [[_ <-]|[_ H]]; [done|]).
  by apply lookup_singleton_Some in H as [_ <-].
Qed.

(** C3, as first stated, fails: after [delete()] the id 1 is absent from
    the running map, and the [update({a: 9})] queued behind it gives the id
    an entry. *)
Lemma C3_absent_id_is_not_skipped :
  ¬ (∀ (m : EntityManager) (state : Tree) (ids : list num)
       (patch : gmap string num) (id : num) (next : Tree),
       id ∈ ids → entityMap state !! id = None →
       reduce_step m state (UPDATE ids (MergePatch patch)) = Ok next →
       entityMap next !! id = entityMap state !! id).
Proof.
  intros H.
  specialize (H (new_EntityManager sample_schema one_tree) empty_tree [Fin 1]
                {[ "a" := Fin 9 ]} (Fin 1)
                {| idArr := []; entityMap := {[ Fin 1 := {[ "a" := Fin 9 ]} ]} |}).
  simpl in H. rewrite lookup_singleton_eq, lookup_empty in H.
  discriminate H; [set_solver|done|reflexivity].
Qed.

Lemma C3_witness :
  Fin 1 ∈ [Fin 1] ∧ entityMap empty_tree !! Fin 1 = None ∧
  ∃ next,
    reduce_step (new_EntityManager sample_schema one_tree) empty_tree
                (UPDATE [Fin 1] (MergePatch {[ "a" := Fin 9 ]})) = Ok next ∧
    entityMap next !! Fin 1 = Some {[ "a" := Fin 9 ]} ∧
    idArr next = [].
Proof.
  assert (Fin 1 ∈ [Fin 1]) as Hin by (apply list_elem_of_singleton; reflexivity).
  assert (entityMap empty_tree !! Fin 1 = None) as Hnone by reflexivity.
  split; [exact Hin|]. split; [exact Hnone|].
  destruct (C3_update_of_absent_id_inserts_the_patch
              (new_EntityManager sample_schema one_tree) empty_tree [Fin 1]
              {[ "a" := Fin 9 ]} (Fin 1) Hin Hnone) as (next & Hstep & Hid & Harr & _).
  exists next. split; [exact Hstep|]. split; [exact Hid|exact Harr].
Defined.

(** C4, as first stated, fails: the session [delete(); update({a: 9})] on
    the branch [{1}] reduces to an empty id array and a map with the key 1. *)
Lemma C4_invariant_is_not_kept_by_every_log :
  ¬ (∀ (m : EntityManager) (done_ rest : list Action) (st : Tree),
       branch_inv (getEntityTree m) →
       mutations m = done_ ++ rest →
       reduce_from m (getEntityTree m) done_ = Ok st → branch_inv st).
Proof.
  intros H.
  specialize (H (update (delete_ (new_EntityManager sample_schema one_tree))
                        (MergePatch {[ "a" := Fin 9 ]}))
                [DELETE [Fin 1]; UPDATE [Fin 1] (MergePatch {[ "a" := Fin 9 ]})] []
                {| idArr := []; entityMap := {[ Fin 1 := {[ "a" := Fin 9 ]} ]} |}
                one_tree_inv eq_refl eq_refl).
  destruct H as [_ H]. simpl in H. rewrite dom_singleton_L in H. set_solver.
Qed.

Lemma C4_witness :
  branch_inv (getEntityTree safe_session) ∧
  safe_log safe_session (getEntityTree safe_session) (mutations safe_session) ∧
  ∃ st,
    reduce safe_session = Ok st ∧ idArr st = [Fin 3; Fin 1; Fin 4] ∧ branch_inv st.
Proof.
  assert (safe_log safe_session (getEntityTree safe_session) (mutations safe_session))
    as Hsafe.
  { apply (@bool_decide_unpack _ (safe_log_dec _ _ _)). vm_compute. exact I. }
  split; [exact three_tree_inv|]. split; [exact Hsafe|].
  destruct (proj2 (C4_invariant_along_safe_logs safe_session three_tree_inv Hsafe))
    as (st & Hst & Hinv).
  - repeat constructor.
  - exists st. split; [exact Hst|]. split; [|exact Hinv]. by injection Hst as <-.
Defined.

Lemma C5_witness :
  attrs_exclude_id (new_EntityManager sample_schema three_tree) ∧
  ∃ st,
    reduce (setOrder (new_EntityManager sample_schema three_tree) ["a"]) = Ok st ∧
    entityMap st = entityMap three_tree ∧
    idArr st = [Fin 2; Fin 3; Fin 1] ∧
    idArr st ≡ₚ [Fin 1; Fin 2; Fin 3].
Proof.
  pose proof (three_tree_excludes_id []) as Hex.
  split; [exact Hex|].
  destruct (C5_setOrder_is_a_stable_sort sample_schema three_tree ["a"] Hex)
    as (st & Hst & Hmap & Hperm & _).
  exists st. split; [exact Hst|]. split; [exact Hmap|]. split; [|exact Hperm].
  by injection Hst as <-.
Defined.

Lemma C6_witness :
  attrs_exclude_id
    (session (new_EntityManager sample_schema three_tree)
       [W_delete (new_QuerySet [Fin 2]); W_create {[ "a" := Fin 0 ]}]) ∧
  reduce (setOrder
    (session (new_EntityManager sample_schema three_tree)
       [W_delete (new_QuerySet [Fin 2]); W_create {[ "a" := Fin 0 ]}]) ["a"]) =
  Ok {| idArr := [Fin 2; Fin 3; Fin 1];
        entityMap := {[ Fin 1 := {[ "a" := Fin 7 ]};
                        Fin 3 := {[ "a" := Fin 4; "b" := Fin 0 ]};
                        Fin 4 := {[ "a" := Fin 0 ]} ]} |}.
Proof.
  pose proof (three_tree_excludes_id
                [W_delete (new_QuerySet [Fin 2]); W_create {[ "a" := Fin 0 ]}]) as Hex.
  split; [exact Hex|].
  destruct (C6_reorder_reads_original_branch _ ["a"] Hex) as (_ & Hlog & _ & _).
  rewrite (Hlog _ eq_refl). reflexivity.
Defined.

Lemma C7_witness :
  getIdArray (new_EntityManager sample_schema empty_tree) = [] ∧
  get (new_EntityManager sample_schema empty_tree) {[ "id" := Fin 1 ]} =
  Throw EmptyStoreError.
Proof.
  split; [reflexivity|].
  apply C7_get_on_empty_branch. reflexivity.
Defined.

(** The entity 1 has [a = 1]: it does not match the lookup [{id: 1, a: 99}],
    and [get] returns it all the same. *)
Lemma C8_witness :
  getIdArray (new_EntityManager sample_schema one_tree) ≠ [] ∧
  ({[ "id" := Fin 1; "a" := Fin 99 ]} : gmap string num) !! "id" = Some (Fin 1) ∧
  match_ {[ "id" := Fin 1; "a" := Fin 99 ]}
         (getFullEntity (new_EntityManager sample_schema one_tree) (Fin 1)) = false ∧
  get (new_EntityManager sample_schema one_tree) {[ "id" := Fin 1; "a" := Fin 99 ]} =
  Ok (new_Entity {[ "id" := Fin 1; "a" := Fin 1; "b" := Fin 2 ]}).
Proof.
  assert (getIdArray (new_EntityManager sample_schema one_tree) ≠ []) as Hne by discriminate.
  split; [exact Hne|]. split; [reflexivity|]. split; [reflexivity|].
  exact (proj1 (C8_get_by_id_attribute (new_EntityManager sample_schema one_tree)
                  {[ "id" := Fin 1; "a" := Fin 99 ]} (Fin 1) Hne eq_refl)).
Defined.

Lemma C9_witness :
  entityMap one_tree !! Fin 1 = Some {[ "a" := Fin 1; "b" := Fin 2 ]} ∧
  ∃ st,
    reduce (QuerySet_update (new_EntityManager sample_schema one_tree)
              (new_QuerySet [Fin 1]) (MergePatch {[ "a" := Fin 9 ]})) = Ok st ∧
    entityMap st !! Fin 1 = Some {[ "a" := Fin 9; "b" := Fin 2 ]} ∧
    idArr st = [Fin 1].
Proof.
  assert (entityMap one_tree !! Fin 1 = Some {[ "a" := Fin 1; "b" := Fin 2 ]}) as Hid
    by reflexivity.
  split; [exact Hid|].
  destruct (C9_merge_patch_update sample_schema one_tree (Fin 1) _ {[ "a" := Fin 9 ]} Hid)
    as (st & Hst & Hlook & _ & _ & Harr).
  exists st. split; [exact Hst|]. split; [|exact Harr].
  rewrite Hlook. reflexivity.
Defined.

(** * Further properties of the code *)

(** ** Id allocation *)

Lemma num_max_swap a b c : num_max a (num_max b c) = num_max b (num_max a c).
Proof.
  destruct a as [|a], b as [|b], c as [|c]; unfold num_max, num_ltb;
    repeat case_bool_decide; try done; f_equal; lia.
Qed.

Lemma Math_max_perm l k : l ≡ₚ k → Math_max l = Math_max k.
Proof.
  unfold Math_max. induction 1 as [|x l k _ IH|x y l|l k j _ IH1 _ IH2]; simpl.
  - done.
  - by rewrite IH.
  - apply num_max_swap.
  - by rewrite IH1.
Qed.

Lemma Math_max_NegInf l : (∀ x, x ∈ l → x = NegInf) → Math_max l = NegInf.
Proof.
  induction l as [|y l IH]; intros H; simpl; [done|].
  rewrite IH by (intros x Hx; apply H; by right).
  by rewrite (H y) by left.
Qed.



(** X2. [nextId] is [-Infinity] exactly when the id array holds no finite
    id: when it is empty, or holds nothing but [-Infinity]. *)
Theorem X2_nextId_is_not_finite_without_a_finite_id (m : EntityManager) :
  nextId m = NegInf ↔ ∀ x, x ∈ getIdArray m → x = NegInf.
Proof.
  split.
  - intros Hneg [|z] Hx; [done|].
    destruct (nextId_finite m z Hx) as (top & _ & _ & Hnext & _). congruence.
  - intros Hall. unfold nextId. by rewrite Math_max_NegInf.
Qed.

(** X3. [nextId] does not depend on the order of the id array: two
    branches whose id arrays are permutations of each other allocate the
    same id. *)
Theorem X3_nextId_ignores_the_order (m m' : EntityManager) :
  getIdArray m ≡ₚ getIdArray m' → nextId m = nextId m'.
Proof. intros Hperm. unfold nextId. by rewrite (Math_max_perm _ _ Hperm). Qed.

Lemma X3_witness :
  getIdArray (new_EntityManager sample_schema three_tree) ≡ₚ
  getIdArray (new_EntityManager sample_schema
                {| idArr := [Fin 3; Fin 1; Fin 2]; entityMap := ∅ |}) ∧
  nextId (new_EntityManager sample_schema three_tree) =
  nextId (new_EntityManager sample_schema
            {| idArr := [Fin 3; Fin 1; Fin 2]; entityMap := ∅ |}).
Proof.
  assert (getIdArray (new_EntityManager sample_schema three_tree) ≡ₚ
          getIdArray (new_EntityManager sample_schema
                        {| idArr := [Fin 3; Fin 1; Fin 2]; entityMap := ∅ |})) as Hperm.
  { apply (@bool_decide_unpack _ (Permutation_dec _ _)). vm_compute. exact I. }
  split; [exact Hperm|]. exact (X3_nextId_ignores_the_order _ _ Hperm).
Defined.

(** ** Full-entity views *)

(** X4. A property of the full-entity view of [id] is the stored record's
    when the record has it; otherwise it is [id] for the id attribute and
    undefined for any other key. So a stored id attribute shadows the id,
    and an id without a record gets the view that holds the id alone. *)
Theorem X4_getFullEntity_lookup (m : EntityManager) (id : num) (k : string) :
  getFullEntity m id !! k =
  match getEntityMap m !! id ≫= (λ entity, entity !! k) with
  | Some v => Some v
  | None => if decide (k = getIdAttribute m) then Some id else None
  end ∧
  (getEntityMap m !! id = None → getFullEntity m id = {[ getIdAttribute m := id ]}).
Proof.
  unfold getFullEntity. split.
  - rewrite lookup_union.
    destruct (getEntityMap m !! id) as [entity|]; simpl.
    + destruct (entity !! k); simpl.
      * by destruct ({[getIdAttribute m := id]} !! k).
      * case_decide as Hk; [subst; by rewrite lookup_singleton_eq|].
        by rewrite lookup_singleton_ne.
    + rewrite lookup_empty. case_decide as Hk; [subst; by rewrite lookup_singleton_eq|].
      by rewrite lookup_singleton_ne.
  - intros ->. simpl. by rewrite (left_id_L ∅ (∪)).
Qed.

(** ** Lookup by attributes *)

Lemma find_fmap_first {A B} (f : A → B) (p : B → bool) (l : list A) (y : B) :
  List.find p (f <$> l) = Some y ↔
  ∃ before x after, l = before ++ x :: after ∧ y = f x ∧ p (f x) = true ∧
                    ∀ j, j ∈ before → p (f j) = false.
Proof.
  induction l as [|a l IH]; simpl.
  - split; [done|]. intros (before & x & after & Hl & _). by destruct before.
  - destruct (p (f a)) eqn:E.
    + split.
      * intros [= <-]. exists [], a, l. split_and!; try done. by intros j ?%elem_of_nil.
      * intros (before & x & after & Hl & -> & Hx & Hbefore).
        destruct before as [|b before]; simpl in Hl; injection Hl as -> ->; [done|].
        rewrite Hbefore in E by left. done.
    + rewrite IH. split.
      * intros (before & x & after & -> & -> & Hx & Hbefore).
        exists (a :: before), x, after. split_and!; try done.
        intros j [->|Hj]%elem_of_cons; [done|by apply Hbefore].
      * intros (before & x & after & Hl & -> & Hx & Hbefore).
        destruct before as [|b before]; simpl in Hl; injection Hl as -> ->; [congruence|].
        exists before, x, after. split_and!; try done.
        intros j Hj. apply Hbefore. by right.
Qed.

Lemma find_fmap_none {A B} (f : A → B) (p : B → bool) (l : list A) :
  List.find p (f <$> l) = None ↔ ∀ j, j ∈ l → p (f j) = false.
Proof.
  induction l as [|a l IH]; simpl.
  - split; [by intros _ j ?%elem_of_nil|done].
  - destruct (p (f a)) eqn:E.
    + split; [done|]. intros H. rewrite H in E by left. done.
    + rewrite IH. split.
      * intros H j [->|Hj]%elem_of_cons; [done|by apply H].
      * intros H j Hj. apply H. by right.
Qed.

(** X5. On a non-empty branch, a lookup object without the id-attribute
    key makes [get] scan the ids in sequence order: it returns the view of
    the first id whose view the matcher accepts, it throws the not-found
    error exactly when the matcher accepts no view, and it never throws the
    empty-store error. *)
Theorem X5_get_returns_the_first_match
    (m : EntityManager) (lookupObj : gmap string num) :
  getIdArray m ≠ [] → lookupObj !! getIdAttribute m = None →
  (∀ found,
     get m lookupObj = Ok found ↔
     ∃ before id after,
       getIdArray m = before ++ id :: after ∧
       fields found = getFullEntity m id ∧
       match_ lookupObj (getFullEntity m id) = true ∧
       ∀ j, j ∈ before → match_ lookupObj (getFullEntity m j) = false) ∧
  (get m lookupObj = Throw EntityNotFoundError ↔
   ∀ j, j ∈ getIdArray m → match_ lookupObj (getFullEntity m j) = false) ∧
  get m lookupObj ≠ Throw EmptyStoreError.
Proof.
  intros Hne Hid.
  assert (get m lookupObj =
          match List.find (λ entity, match_ lookupObj entity) (getFullEntities m) with
          | Some found => Ok (new_Entity found)
          | None => Throw EntityNotFoundError
          end) as Hget.
  { unfold get, exists_, QuerySet_exists, _getQuerySet. simpl.
    destruct (getIdArray m); [done|]. simpl. by rewrite Hid. }
  rewrite Hget. unfold getFullEntities. split_and!.
  - intros [found]. simpl.
    rewrite <- (find_fmap_first (getFullEntity m) (match_ lookupObj) (getIdArray m) found).
    destruct (List.find _ _); split; congruence.
  - rewrite <- (find_fmap_none (getFullEntity m) (match_ lookupObj) (getIdArray m)).
    destruct (List.find _ _); split; congruence.
  - by destruct (List.find _ _).
Qed.

(** The lookup [{a: 4}] on [three_tree]: the ids 2 and 3 both match, and
    [get] returns the view of 2, the first of them. *)
Lemma X5_witness :
  getIdArray (new_EntityManager sample_schema three_tree) ≠ [] ∧
  ({[ "a" := Fin 4 ]} : gmap string num) !! "id" = None ∧
  match_ {[ "a" := Fin 4 ]}
         (getFullEntity (new_EntityManager sample_schema three_tree) (Fin 3)) = true ∧
  get (new_EntityManager sample_schema three_tree) {[ "a" := Fin 4 ]} =
  Ok (new_Entity {[ "id" := Fin 2; "a" := Fin 4 ]}).
Proof.
  assert (getIdArray (new_EntityManager sample_schema three_tree) ≠ []) as Hne
    by discriminate.
  assert (({[ "a" := Fin 4 ]} : gmap string num)
            !! getIdAttribute (new_EntityManager sample_schema three_tree) = None)
    as Hkey by reflexivity.
  split; [exact Hne|]. split; [exact Hkey|]. split; [reflexivity|].
  apply (proj1 (X5_get_returns_the_first_match
                  (new_EntityManager sample_schema three_tree) {[ "a" := Fin 4 ]}
                  Hne Hkey)).
  exists [Fin 1], (Fin 2), [Fin 3]. split; [reflexivity|]. split; [reflexivity|].
  split; [reflexivity|].
  intros j Hj. apply list_elem_of_singleton in Hj. subst j. reflexivity.
Defined.

(** X6. On a non-empty branch, [get] by an id that has no record does not
    fail: it returns an entity that holds the id attribute alone. *)
Theorem X6_get_by_an_id_without_record
    (m : EntityManager) (lookupObj : gmap string num) (id : num) :
  getIdArray m ≠ [] → lookupObj !! getIdAttribute m = Some id →
  getEntityMap m !! id = None →
  get m lookupObj = Ok (new_Entity {[ getIdAttribute m := id ]}).
Proof.
  intros Hne Hid Hnone. unfold get, exists_, QuerySet_exists, _getQuerySet. simpl.
  destruct (getIdArray m); [done|]. simpl. rewrite Hid.
  unfold getFullEntity. rewrite Hnone. simpl. by rewrite (left_id_L ∅ (∪)).
Qed.

Lemma X6_witness :
  getIdArray (new_EntityManager sample_schema one_tree) ≠ [] ∧
  ({[ "id" := Fin 5 ]} : gmap string num) !! "id" = Some (Fin 5) ∧
  getEntityMap (new_EntityManager sample_schema one_tree) !! Fin 5 = None ∧
  get (new_EntityManager sample_schema one_tree) {[ "id" := Fin 5 ]} =
  Ok (new_Entity {[ "id" := Fin 5 ]}).
Proof.
  assert (getIdArray (new_EntityManager sample_schema one_tree) ≠ []) as Hne
    by discriminate.
  assert (({[ "id" := Fin 5 ]} : gmap string num)
            !! getIdAttribute (new_EntityManager sample_schema one_tree) = Some (Fin 5))
    as Hkey by reflexivity.
  assert (getEntityMap (new_EntityManager sample_schema one_tree) !! Fin 5 = None)
    as Hnone by reflexivity.
  split; [exact Hne|]. split; [exact Hkey|]. split; [exact Hnone|].
  exact (X6_get_by_an_id_without_record
           (new_EntityManager sample_schema one_tree) {[ "id" := Fin 5 ]} (Fin 5)
           Hne Hkey Hnone).
Defined.

(** ** One create *)



(** ** Delete *)

Lemma omit_lookup (entityMap : gmap num (gmap string num)) ids j :
  omit entityMap ids !! j = if decide (j ∈ ids) then None else entityMap !! j.
Proof.
  unfold omit. case_decide.
  - by apply lookup_foldr_delete.
  - by apply lookup_foldr_delete_not_elem_of.
Qed.

Lemma filter_all {A} (P : A → Prop) `{!∀ x, Decision (P x)} (l : list A) :
  (∀ x, x ∈ l → P x) → filter P l = l.
Proof.
  induction l as [|x l IH]; intros Hall; [done|].
  rewrite filter_cons_True by (apply Hall; left).
  f_equal. apply IH. intros y Hy. apply Hall. by right.
Qed.

Lemma filter_none {A} (P : A → Prop) `{!∀ x, Decision (P x)} (l : list A) :
  (∀ x, x ∈ l → ¬ P x) → filter P l = [].
Proof.
  induction l as [|x l IH]; intros Hall; [done|].
  rewrite filter_cons_False by (apply Hall; left).
  apply IH. intros y Hy. apply Hall. by right.
Qed.

Lemma reduce_step_DELETE m state ids :
  reduce_step m state (DELETE ids) =
  Ok {| idArr := filter (λ id, id ∉ ids) (idArr state);
        entityMap := omit (entityMap state) ids |}.
Proof. reflexivity. Qed.

Lemma reduce_step_DELETE_ext m state ids ids' :
  (∀ j, j ∈ ids ↔ j ∈ ids') →
  reduce_step m state (DELETE ids) = reduce_step m state (DELETE ids').
Proof.
  intros Hsame. rewrite !reduce_step_DELETE. do 2 f_equal.
  - apply list_filter_iff. intros x. by rewrite Hsame.
  - apply map_eq. intros j. rewrite !omit_lookup.
    destruct (decide (j ∈ ids)) as [Hj|Hj], (decide (j ∈ ids')) as [Hj'|Hj'];
      try done; by apply Hsame in Hj || apply Hsame in Hj'.
Qed.

(** X8. A Delete step never throws. It keeps the ids it does not list, in
    the order they had, and drops the listed ones from the id array and
    from the map alike, leaving the other entries as they were. Listing ids
    that are in neither is harmless: the state is returned as it was. *)
Theorem X8_delete_step (m : EntityManager) (state : Tree) (ids : list num) :
  ∃ next,
    reduce_step m state (DELETE ids) = Ok next ∧
    (idArr next `sublist_of` idArr state) ∧
    (∀ j, j ∈ idArr next ↔ (j ∈ idArr state ∧ (j ∉ ids))) ∧
    (∀ j, entityMap next !! j =
          if decide (j ∈ ids) then None else entityMap state !! j) ∧
    ((∀ j, j ∈ ids → (j ∉ idArr state) ∧ entityMap state !! j = None) →
     next = state).
Proof.
  eexists. split; [apply reduce_step_DELETE|]. simpl. split_and!.
  - apply sublist_filter.
  - intros j. rewrite list_elem_of_filter. tauto.
  - intros j. apply omit_lookup.
  - intros Habsent. destruct state as [arr em]. simpl in *. f_equal.
    + apply filter_all. intros x Hx Hin. by destruct (Habsent x Hin).
    + apply map_eq. intros j. rewrite omit_lookup. case_decide as Hj; [|done].
      by destruct (Habsent j Hj) as [_ ->].
Qed.

(** X9. Two Delete steps in a row are one Delete step of the two lists
    together, and a Delete step repeated changes nothing more. *)
Theorem X9_delete_steps_compose
    (m : EntityManager) (state : Tree) (ids ids' : list num) :
  reduce_from m state [DELETE ids; DELETE ids'] =
    reduce_step m state (DELETE (ids ++ ids')) ∧
  reduce_from m state [DELETE ids; DELETE ids] = reduce_step m state (DELETE ids).
Proof.
  assert (∀ a b, reduce_from m state [DELETE a; DELETE b] =
                 reduce_step m state (DELETE (a ++ b))) as Hcomp.
  { intros a b. simpl. rewrite !reduce_step_DELETE. simpl. do 2 f_equal.
    - rewrite list_filter_filter. apply list_filter_iff. intros x.
      rewrite elem_of_app. tauto.
    - apply map_eq. intros j. rewrite !omit_lookup.
      repeat case_decide; try done; set_solver. }
  split; [apply Hcomp|].
  rewrite Hcomp. apply reduce_step_DELETE_ext. intros j. rewrite elem_of_app. tauto.
Qed.

(** X10. On a branch whose map has no key outside the id array, the
    manager's [delete()] and then [reduce()] gives the empty branch. *)
Theorem X10_delete_all_empties_the_branch (s : Schema) (t : Tree) :
  (∀ j, is_Some (entityMap t !! j) → j ∈ idArr t) →
  reduce (delete_ (new_EntityManager s t)) = Ok {| idArr := []; entityMap := ∅ |}.
Proof.
  intros Hkeys. unfold reduce, delete_, QuerySet_delete, reduce_from, reduce_step.
  simpl. do 2 f_equal.
  - apply filter_none. intros x Hx Hnot. by apply Hnot.
  - apply map_empty. intros j. rewrite omit_lookup. case_decide as Hj; [done|].
    destruct (entityMap t !! j) eqn:E; [|done].
    exfalso. apply Hj. apply Hkeys. by rewrite E.
Qed.

Lemma X10_witness :
  (∀ j, is_Some (entityMap three_tree !! j) → j ∈ idArr three_tree) ∧
  reduce (delete_ (new_EntityManager sample_schema three_tree)) =
  Ok {| idArr := []; entityMap := ∅ |}.
Proof.
  assert (∀ j, is_Some (entityMap three_tree !! j) → j ∈ idArr three_tree) as Hkeys.
  { intros j Hj. apply elem_of_dom in Hj.
    destruct three_tree_inv as [_ Hdom]. rewrite Hdom in Hj.
    by apply elem_of_list_to_set in Hj. }
  split; [exact Hkeys|].
  exact (X10_delete_all_empties_the_branch sample_schema three_tree Hkeys).
Defined.

(** ** Update *)

Lemma mapper_MergePatch patch entity :
  mapper (MergePatch patch) entity = Ok (patch ∪ default ∅ entity).
Proof. reflexivity. Qed.

Lemma forEach_update_Ok updater entityMap ids acc :
  (∀ j, j ∈ ids → ∃ v, mapper updater (entityMap !! j) = Ok v) →
  ∃ updatedMap, forEach_update updater entityMap ids acc = Ok updatedMap.
Proof.
  revert acc. induction ids as [|i ids IH]; intros acc Hall; simpl; [eauto|].
  destruct (Hall i) as [v ->]; [by left|]. simpl.
  apply IH. intros j Hj. apply Hall. by right.
Qed.

Lemma forEach_update_Throw updater entityMap ids acc e :
  forEach_update updater entityMap ids acc = Throw e ↔
  ∃ before id after,
    ids = before ++ id :: after ∧
    (∀ j, j ∈ before → ∃ v, mapper updater (entityMap !! j) = Ok v) ∧
    mapper updater (entityMap !! id) = Throw e.
Proof.
  revert acc. induction ids as [|i ids IH]; intros acc; simpl.
  - split; [done|]. intros (before & id & after & Hl & _). by destruct before.
  - destruct (mapper updater (entityMap !! i)) as [v|e'] eqn:E; simpl.
    + rewrite IH. split.
      * intros (before & id & after & -> & Hbefore & Hid).
        exists (i :: before), id, after. split_and!; try done.
        intros j [->|Hj]%elem_of_cons; [eauto|by apply Hbefore].
      * intros (before & id & after & Hl & Hbefore & Hid).
        destruct before as [|b before]; simpl in Hl; injection Hl as -> ->; [congruence|].
        exists before, id, after. split_and!; try done.
        intros j Hj. apply Hbefore. by right.
    + split.
      * intros [= ->]. exists [], i, ids. split_and!; try done. by intros j ?%elem_of_nil.
      * intros (before & id & after & Hl & Hbefore & Hid).
        destruct before as [|b before]; simpl in Hl; injection Hl as -> ->; [congruence|].
        destruct (Hbefore b) as [v Hv]; [by left|]. congruence.
Qed.

Lemma reduce_step_UPDATE_Throw m state ids updater e :
  reduce_step m state (UPDATE ids updater) = Throw e ↔
  forEach_update updater (entityMap state) ids ∅ = Throw e.
Proof.
  unfold reduce_step. simpl.
  destruct (forEach_update updater (entityMap state) ids ∅); simpl; split; congruence.
Qed.

(** X11. An Update step that returns leaves the id array as it was, sends
    every listed id to the result of the updater on the record the id had
    before the step ([undefined] when it had none), and leaves the other
    entries as they were. The result depends on which ids are listed, not
    on their order or on how often one is listed. *)
Theorem X11_update_step
    (m : EntityManager) (state : Tree) (ids : list num) (updater : Updater)
    (next : Tree) :
  reduce_step m state (UPDATE ids updater) = Ok next →
  idArr next = idArr state ∧
  (∀ j, j ∈ ids →
        ∃ v, mapper updater (entityMap state !! j) = Ok v ∧
             entityMap next !! j = Some v) ∧
  (∀ j, j ∉ ids → entityMap next !! j = entityMap state !! j) ∧
  (∀ ids', (∀ j, j ∈ ids ↔ j ∈ ids') →
           reduce_step m state (UPDATE ids' updater) = Ok next).
Proof.
  intros Hstep. destruct (reduce_step_idArr _ _ _ _ Hstep) as [Harr Hmap].
  assert (∀ j, (j ∉ ids → entityMap next !! j = entityMap state !! j) ∧
               (j ∈ ids → ∃ v, mapper updater (entityMap state !! j) = Ok v ∧
                               entityMap next !! j = Some v)) as Hlook.
  { intros j. exact (reduceEntityMap_UPDATE_lookup m _ _ _ _ j Hmap). }
  split_and!; [done|intros j; apply Hlook|intros j; apply Hlook|].
  intros ids' Hsame.
  destruct (forEach_update_Ok updater (entityMap state) ids' ∅) as [um' Hum'].
  { intros j Hj. apply Hsame in Hj. destruct (proj2 (Hlook j) Hj) as (v & Hv & _). eauto. }
  unfold reduce_step. simpl. rewrite Hum'. simpl.
  destruct next as [arr em]. simpl in *. f_equal. f_equal; [done|].
  apply map_eq. intros j.
  assert (reduceEntityMap m (entityMap state) (UPDATE ids' updater) = Ok (um' ∪ entityMap state))
    as Hmap' by (simpl; by rewrite Hum').
  destruct (reduceEntityMap_UPDATE_lookup m _ _ _ _ j Hmap') as [Hout' Hin'].
  destruct (Hlook j) as [Hout Hin].
  destruct (decide (j ∈ ids)) as [Hj|Hj].
  - destruct (Hin Hj) as (v & Hv & ->).
    destruct (Hin' (proj1 (Hsame j) Hj)) as (v' & Hv' & ->). congruence.
  - rewrite (Hout Hj). apply Hout'. by rewrite <- Hsame.
Qed.

(** The counter [bump] on the record [{n: 0}] of id 1, listed twice: the
    step counts once. *)
Lemma X11_witness :
  reduce_step (new_EntityManager sample_schema empty_tree)
    {| idArr := [Fin 1]; entityMap := {[ Fin 1 := {[ "n" := Fin 0 ]} ]} |}
    (UPDATE [Fin 1; Fin 1] (ReplaceFn bump)) =
  Ok {| idArr := [Fin 1]; entityMap := {[ Fin 1 := {[ "n" := Fin 1 ]} ]} |} ∧
  reduce_step (new_EntityManager sample_schema empty_tree)
    {| idArr := [Fin 1]; entityMap := {[ Fin 1 := {[ "n" := Fin 0 ]} ]} |}
    (UPDATE [Fin 1] (ReplaceFn bump)) =
  Ok {| idArr := [Fin 1]; entityMap := {[ Fin 1 := {[ "n" := Fin 1 ]} ]} |}.
Proof.
  assert (reduce_step (new_EntityManager sample_schema empty_tree)
            {| idArr := [Fin 1]; entityMap := {[ Fin 1 := {[ "n" := Fin 0 ]} ]} |}
            (UPDATE [Fin 1; Fin 1] (ReplaceFn bump)) =
          Ok {| idArr := [Fin 1]; entityMap := {[ Fin 1 := {[ "n" := Fin 1 ]} ]} |})
    as Hstep by reflexivity.
  split; [exact Hstep|].
  apply (X11_update_step _ _ _ _ _ Hstep).
  intros j. split.
  - intros Hj. apply elem_of_cons in Hj. destruct Hj as [Hj|Hj]; [|exact Hj].
    subst j. apply list_elem_of_singleton. reflexivity.
  - intros Hj. apply elem_of_cons. right. exact Hj.
Defined.

(** X12. An Update step throws exactly when the updater throws on the
    record of a listed id, and the error is that of the first such id in
    the order of the list. *)
Theorem X12_update_step_throws
    (m : EntityManager) (state : Tree) (ids : list num) (updater : Updater)
    (e : Error) :
  reduce_step m state (UPDATE ids updater) = Throw e ↔
  ∃ before id after,
    ids = before ++ id :: after ∧
    (∀ j, j ∈ before → ∃ v, mapper updater (entityMap state !! j) = Ok v) ∧
    mapper updater (entityMap state !! id) = Throw e.
Proof. rewrite reduce_step_UPDATE_Throw. apply forEach_update_Throw. Qed.

(** X13. Two merge-patch Updates of the same ids in a row are one Update
    with the second patch merged over the first; in particular a
    merge-patch Update repeated changes nothing more. *)
Theorem X13_merge_patches_compose
    (m : EntityManager) (state : Tree) (ids : list num)
    (patch patch' : gmap string num) :
  reduce_from m state [UPDATE ids (MergePatch patch); UPDATE ids (MergePatch patch')] =
    reduce_step m state (UPDATE ids (MergePatch (patch' ∪ patch))) ∧
  reduce_from m state [UPDATE ids (MergePatch patch); UPDATE ids (MergePatch patch)] =
    reduce_step m state (UPDATE ids (MergePatch patch)).
Proof.
  assert (∀ p q, reduce_from m state [UPDATE ids (MergePatch p); UPDATE ids (MergePatch q)] =
                 reduce_step m state (UPDATE ids (MergePatch (q ∪ p)))) as Hcomp.
  { intros p q. simpl.
    destruct (reduce_step_total m state (UPDATE ids (MergePatch p)) I) as [mid Hmid].
    destruct (reduce_step_total m mid (UPDATE ids (MergePatch q)) I) as [last Hlast].
    destruct (reduce_step_total m state (UPDATE ids (MergePatch (q ∪ p))) I) as [one Hone].
    rewrite Hmid. simpl. rewrite Hlast, Hone. f_equal.
    destruct (reduce_step_idArr _ _ _ _ Hmid) as [Harr1 Hmap1].
    destruct (reduce_step_idArr _ _ _ _ Hlast) as [Harr2 Hmap2].
    destruct (reduce_step_idArr _ _ _ _ Hone) as [Harr3 Hmap3].
    assert (entityMap last = entityMap one) as Hem.
    { apply map_eq. intros j.
      destruct (reduceEntityMap_UPDATE_lookup m _ _ _ _ j Hmap1) as [Hout1 Hin1].
      destruct (reduceEntityMap_UPDATE_lookup m _ _ _ _ j Hmap2) as [Hout2 Hin2].
      destruct (reduceEntityMap_UPDATE_lookup m _ _ _ _ j Hmap3) as [Hout3 Hin3].
      destruct (decide (j ∈ ids)) as [Hj|Hj].
      - destruct (Hin1 Hj) as (v1 & Hv1 & Hl1).
        destruct (Hin2 Hj) as (v2 & Hv2 & ->).
        destruct (Hin3 Hj) as (v3 & Hv3 & ->).
        rewrite Hl1 in Hv2. rewrite mapper_MergePatch in Hv1, Hv2, Hv3. simpl in Hv2.
        injection Hv1 as <-. injection Hv2 as <-. injection Hv3 as <-.
        by rewrite (assoc_L (∪)).
      - by rewrite (Hout2 Hj), (Hout1 Hj), (Hout3 Hj). }
    destruct last, one. simpl in *. congruence. }
  split; [apply Hcomp|].
  by rewrite Hcomp, (idemp_L (∪)).
Qed.

(** ** The fold as a whole *)

Lemma reduce_step_Throw m state action e :
  reduce_step m state action = Throw e →
  ∃ ids f, action = UPDATE ids (ReplaceFn f) ∧
           forEach_update (ReplaceFn f) (entityMap state) ids ∅ = Throw e.
Proof.
  destruct action as [p|ids [patch|f]|ids|keys|ty]; try done.
  - intros H. by destruct (reduce_step_total m state (UPDATE ids (MergePatch patch)) I)
      as [next Hnext]; rewrite Hnext in H.
  - intros H%reduce_step_UPDATE_Throw. eauto.
Qed.

Lemma reduce_from_Throw m state log e :
  reduce_from m state log = Throw e ↔
  ∃ done_ action rest mid,
    log = done_ ++ action :: rest ∧
    reduce_from m state done_ = Ok mid ∧
    reduce_step m mid action = Throw e.
Proof.
  revert state. induction log as [|a log IH]; intros state; simpl.
  - split; [done|]. intros (done_ & action & rest & mid & Hl & _). by destruct done_.
  - destruct (reduce_step m state a) as [next|e'] eqn:E; simpl.
    + rewrite IH. split.
      * intros (done_ & action & rest & mid & -> & Hmid & Hstep).
        exists (a :: done_), action, rest, mid. split_and!; try done.
        simpl. by rewrite E.
      * intros (done_ & action & rest & mid & Hl & Hmid & Hstep).
        destruct done_ as [|b done_]; simpl in *.
        -- injection Hl as -> ->. injection Hmid as <-. congruence.
        -- injection Hl as -> ->. rewrite E in Hmid. simpl in Hmid.
           exists done_, action, rest, mid. by split_and!.
    + split.
      * intros [= ->]. exists [], a, log, state. by split_and!.
      * intros (done_ & action & rest & mid & Hl & Hmid & Hstep).
        destruct done_ as [|b done_]; simpl in *.
        -- injection Hl as -> ->. injection Hmid as <-. congruence.
        -- injection Hl as -> ->. by rewrite E in Hmid.
Qed.

(** X14. [reduce] has one failure path: it throws exactly when, at its
    turn in the log, an Update with an updater function meets a listed id
    on whose record in the running state the function throws; the error is
    the one the function raised. *)
Theorem X14_reduce_throws_only_in_an_updater_function
    (m : EntityManager) (e : Error) :
  reduce m = Throw e ↔
  ∃ done_ ids f rest mid before id after,
    mutations m = done_ ++ UPDATE ids (ReplaceFn f) :: rest ∧
    reduce_from m (getEntityTree m) done_ = Ok mid ∧
    ids = before ++ id :: after ∧
    (∀ j, j ∈ before → ∃ v, f (entityMap mid !! j) = Ok v) ∧
    f (entityMap mid !! id) = Throw e.
Proof.
  unfold reduce. rewrite reduce_from_Throw. split.
  - intros (done_ & action & rest & mid & Hlog & Hmid & Hstep).
    destruct (reduce_step_Throw _ _ _ _ Hstep) as (ids & f & -> & Hfor).
    apply forEach_update_Throw in Hfor as (before & id & after & Hids & Hbefore & Hid).
    exists done_, ids, f, rest, mid, before, id, after. by split_and!.
  - intros (done_ & ids & f & rest & mid & before & id & after
            & Hlog & Hmid & Hids & Hbefore & Hid).
    exists done_, (UPDATE ids (ReplaceFn f)), rest, mid. split_and!; try done.
    apply reduce_step_UPDATE_Throw, forEach_update_Throw.
    exists before, id, after. by split_and!.
Qed.

(** X15. The fold runs its two halves side by side and neither reads the
    running value of the other: the id array of the result is the fold of
    [reduceIdArray] alone over the log, and the map, with the failure if
    there is one, is the fold of [reduceEntityMap] alone. *)
Theorem X15_the_two_reductions_are_independent
    (m : EntityManager) (state : Tree) (log : list Action) :
  reduce_from m state log =
  reduceEntityMap_fold m (entityMap state) log ≫= λ finalMap,
    Ok {| idArr := foldl (reduceIdArray m) (idArr state) log;
          entityMap := finalMap |}.
Proof.
  revert state. induction log as [|a log IH]; intros state; simpl.
  - by destruct state.
  - unfold reduce_step.
    destruct (reduceEntityMap m (entityMap state) a) as [em|e]; simpl; [|done].
    by rewrite IH.
Qed.

Lemma reduce_step_noop m state action :
  noop_record action → reduce_step m state action = Ok state.
Proof.
  destruct state as [arr em].
  destruct action as [p|[|i ids] u|[|i ids]|keys|ty]; try done; intros _.
  - unfold reduce_step. simpl. by rewrite (left_id_L ∅ (∪)).
  - unfold reduce_step. simpl. f_equal. f_equal.
    apply filter_all. intros x _ Hx. by apply elem_of_nil in Hx.
Qed.

(** X16. A record that lists no id (an Update or a Delete of the empty
    list) and a record of an unknown type have no effect: dropping them
    from the log changes neither the result of the fold nor its failure. *)
Theorem X16_records_without_effect
    (m : EntityManager) (state : Tree) (log : list Action) :
  reduce_from m state (filter (λ action, ¬ noop_record action) log) =
  reduce_from m state log.
Proof.
  revert state. induction log as [|a log IH]; intros state; [done|].
  rewrite filter_cons. destruct (decide (¬ noop_record a)) as [Ha|Ha]; simpl.
  - destruct (reduce_step m state a); simpl; [apply IH|done].
  - apply dec_stable in Ha. rewrite (reduce_step_noop m state a Ha). simpl. apply IH.
Qed.

(** X17. Writes queued after others are folded from the state the earlier
    records produce: [reduce] of a session extended by more writes is
    [reduce] of the session so far, followed by the fold of the new
    records; if the session so far fails, so does the extended one. *)
Theorem X17_later_writes_fold_after_earlier_ones
    (m : EntityManager) (ws : list Write) :
  reduce (session m ws) =
  reduce m ≫= λ st, reduce_from m st (record_of <$> ws).
Proof. rewrite reduce_session. unfold reduce. apply reduce_from_app. Qed.

(** X18. Only a Delete removes an entry from the map, and only a Delete
    or a Reorder removes or moves an id: after a step of any other record
    every key of the map is still a key, and the id array has only grown
    at its end. *)
Theorem X18_only_delete_and_reorder_remove
    (m : EntityManager) (state : Tree) (action : Action) (next : Tree) :
  reduce_step m state action = Ok next →
  (∀ ids, action ≠ DELETE ids) →
  dom (entityMap state) ⊆ dom (entityMap next) ∧
  ((∀ sortKeys, action ≠ ORDER sortKeys) → idArr state `prefix_of` idArr next).
Proof.
  intros Hstep Hdel.
  destruct (reduce_step_idArr _ _ _ _ Hstep) as [Harr Hmap]. rewrite Harr.
  destruct action as [p|ids u|ids|keys|ty]; simpl in *.
  - injection Hmap as <-. split; [rewrite dom_insert_L; set_solver|].
    intros _. by apply prefix_app_r.
  - split; [|done]. intros j Hj. apply elem_of_dom. apply elem_of_dom in Hj.
    destruct (reduceEntityMap_UPDATE_lookup m _ _ _ _ j Hmap) as [Hout Hin].
    destruct (decide (j ∈ ids)) as [Hin'|Hout']; [|by rewrite (Hout Hout')].
    destruct (Hin Hin') as (v & _ & ->). eauto.
  - by destruct (Hdel ids).
  - injection Hmap as <-. split; [done|]. intros Hord. by destruct (Hord keys).
  - by injection Hmap as <-.
Qed.

Lemma X18_witness :
  reduce_step (new_EntityManager sample_schema one_tree) one_tree
              (CREATE {[ "a" := Fin 5 ]}) =
  Ok {| idArr := [Fin 1; Fin 2];
        entityMap := <[Fin 2 := {[ "a" := Fin 5 ]}]> (entityMap one_tree) |} ∧
  (∀ ids, CREATE {[ "a" := Fin 5 ]} ≠ DELETE ids) ∧
  (∀ sortKeys, CREATE {[ "a" := Fin 5 ]} ≠ ORDER sortKeys) ∧
  dom (entityMap one_tree) ⊆
    dom (<[Fin 2 := {[ "a" := Fin 5 ]}]> (entityMap one_tree)) ∧
  [Fin 1] `prefix_of` [Fin 1; Fin 2].
Proof.
  assert (reduce_step (new_EntityManager sample_schema one_tree) one_tree
            (CREATE {[ "a" := Fin 5 ]}) =
          Ok {| idArr := [Fin 1; Fin 2];
                entityMap := <[Fin 2 := {[ "a" := Fin 5 ]}]> (entityMap one_tree) |})
    as Hstep by reflexivity.
  assert (∀ ids, CREATE {[ "a" := Fin 5 ]} ≠ DELETE ids) as Hdel by discriminate.
  assert (∀ sortKeys, CREATE {[ "a" := Fin 5 ]} ≠ ORDER sortKeys) as Hord by discriminate.
  split; [exact Hstep|]. split; [exact Hdel|]. split; [exact Hord|].
  destruct (X18_only_delete_and_reorder_remove _ _ _ _ Hstep Hdel) as [Hdom Hpre].
  split; [exact Hdom|exact (Hpre Hord)].
Defined.

(** ** Create, reduce, look up *)

(** X19. A record created on a branch that holds a finite id can be looked
    up by its id once the branch is reduced: a manager of the reduced
    branch answers [get] by the new id with the created properties and the
    id under the id attribute (a created id attribute, if there is one,
    shadows it). *)
Theorem X19_created_record_is_found_by_id
    (s : Schema) (t : Tree) (props : gmap string num) (z : Z) :
  Fin z ∈ idArr t →
  ∃ top st,
    nextId (new_EntityManager s t) = Fin (top + 1) ∧
    reduce (create (new_EntityManager s t) props).1 = Ok st ∧
    get (new_EntityManager s st) {[ idAttribute s := Fin (top + 1) ]} =
    Ok (new_Entity (props ∪ {[ idAttribute s := Fin (top + 1) ]})).
Proof.
  intros Hz.
  destruct (nextId_finite (new_EntityManager s t) z Hz) as (top & _ & _ & Hnext & _).
  exists top, {| idArr := idArr t ++ [Fin (top + 1)];
                 entityMap := <[Fin (top + 1) := props]> (entityMap t) |}.
  split; [done|]. split.
  - unfold reduce, reduce_from, reduce_step. simpl.
    change (nextId _) with (nextId (new_EntityManager s t)). by rewrite Hnext.
  - unfold get, exists_, QuerySet_exists, _getQuerySet, getIdArray, getIdAttribute.
    simpl. destruct (idArr t ++ [Fin (top + 1)]) eqn:E; [by destruct (idArr t)|].
    simpl. rewrite lookup_singleton_eq.
    unfold getFullEntity, getEntityMap, getIdAttribute. simpl.
    by rewrite lookup_insert_eq.
Qed.

Lemma X19_witness :
  Fin 1 ∈ idArr one_tree ∧
  ∃ st,
    reduce (create (new_EntityManager sample_schema one_tree) {[ "a" := Fin 5 ]}).1 =
      Ok st ∧
    get (new_EntityManager sample_schema st) {[ "id" := Fin 2 ]} =
    Ok (new_Entity {[ "id" := Fin 2; "a" := Fin 5 ]}).
Proof.
  assert (Fin 1 ∈ idArr one_tree) as Hin by (apply list_elem_of_singleton; reflexivity).
  split; [exact Hin|].
  destruct (X19_created_record_is_found_by_id sample_schema one_tree
              {[ "a" := Fin 5 ]} 1 Hin) as (top & st & Hnext & Hst & Hget).
  exists st. split; [exact Hst|].
  assert (top = 1) as -> by (injection Hnext as Htop; lia).
  exact Hget.
Defined.
